(** * sinto/fragments.py: fragment assembly and duplicate collapsing

    A shallow embedding of [src/sinto/fragments.py] and the properties of its
    fragment assembler ([updateFragmentDict]), completeness filter
    ([filterFragmentDict]), deduplicator ([collapseFragments], [id_lookup]),
    per-partition routine ([getFragments]) and output ([condenseFragList],
    [writeFragments]).

    Python dictionaries keyed by read name are finite maps, Python exceptions
    are an explicit error result, Python integers are [Z]. *)

From Stdlib Require Import ZArith Lia Ascii String.
From stdpp Require Import gmap strings list fin_maps pretty.

Local Open Scope string_scope.
Local Open Scope list_scope.
Local Open Scope Z_scope.

(** ** Exceptions and results *)

Inductive exn : Type :=
| KeyError
| ValueError
| IndexError
| AttributeError
| NameError
| OSError.

Inductive result (A : Type) : Type :=
| Ok (a : A)
| Raise (e : exn).
Arguments Ok {A} a.
Arguments Raise {A} e.

#[global] Instance exn_eq_dec : EqDecision exn.
Proof. solve_decision. Defined.

#[global] Instance result_ret : MRet result := λ A a, Ok a.
#[global] Instance result_bind : MBind result := λ A B f m,
  match m with
  | Ok a => f a
  | Raise e => Raise e
  end.

(** ** Python values held in a fragment entry *)

Inductive pyval : Type :=
| PNone
| PInt (z : Z)
| PStr (s : string).

#[global] Instance pyval_eq_dec : EqDecision pyval.
Proof. solve_decision. Defined.

(** [bool(v)]: [None], [0] and the empty string are falsy. *)
Definition truthy (v : pyval) : bool :=
  match v with
  | PNone => false
  | PInt z => negb (Z.eqb z 0)
  | PStr s => negb (String.eqb s "")
  end.

(** [str(v)] *)
Definition str (v : pyval) : string :=
  match v with
  | PNone => "None"
  | PInt z => pretty z
  | PStr s => s
  end.

Definition of_opt_str (o : option string) : pyval :=
  match o with Some s => PStr s | None => PNone end.
Definition of_opt_int (o : option Z) : pyval :=
  match o with Some z => PInt z | None => PNone end.

(** An entry of the fragment dictionary:
    [{"chrom": .., "start": .., "end": .., "cell": ..}]. *)
Record fragment : Type := Fragment {
  chrom : option string;
  start : option Z;
  end_ : option Z;
  cell : option string
}.

#[global] Instance fragment_eq_dec : EqDecision fragment.
Proof. solve_decision. Defined.

(** [x.values()], in the insertion order of the four keys. *)
Definition values (x : fragment) : list pyval :=
  [of_opt_str (chrom x); of_opt_int (start x); of_opt_int (end_ x);
   of_opt_str (cell x)].

Definition set_start (x : fragment) (v : Z) : fragment :=
  {| chrom := chrom x; start := Some v; end_ := end_ x; cell := cell x |}.
Definition set_end (x : fragment) (v : Z) : fragment :=
  {| chrom := chrom x; start := start x; end_ := Some v; cell := cell x |}.

(** ** Aligned segments (the fields of [pysam.AlignedSegment] that are read) *)

Record AlignedSegment : Type := Segment {
  query_name : string;
  tags : list (string * string);
  mapping_quality : Z;
  reference_name : option string;
  reference_start : Z;
  reference_end : option Z;
  query_alignment_start : Z;
  is_reverse : bool
}.

(** [segment.qname] is pysam's older name of [segment.query_name]. *)
Definition qname (segment : AlignedSegment) : string := query_name segment.

(** A compiled regular expression, seen through the only use the code makes
    of it: [regex s] is [Some (m.group())] when [pattern.match(s)] returns a
    match object [m], and [None] when it returns [None]. *)
Definition regex : Type := string → option string.

(** Modelled from the spec: [utils.scan_tags] is not part of the sources at
    hand.  "Extract barcode via tag lookup on the read; if the tag is absent,
    barcode is null."  Only the first component of its result (the cell
    barcode) is used by the caller. *)
Fixpoint scan_tags (tgs : list (string * string)) (cb : string) : option string :=
  match tgs with
  | [] => None
  | (t, v) :: rest => if decide (t = cb) then Some v else scan_tags rest cb
  end.

(** ** updateFragmentDict *)

(** Lines 152-156: the cell barcode of a read, from the read name when a
    compiled regex is given ([re_match.group()], which raises
    [AttributeError] when [re_match] is [None]) and from the tags
    otherwise. *)
Definition read_barcode (segment : AlignedSegment) (cellbarcode : string)
    (readname_barcode : option regex) : result (option string) :=
  match readname_barcode with
  | Some re =>
      match re (qname segment) with
      | Some group => Ok (Some group)
      | None => Raise AttributeError
      end
  | None => Ok (scan_tags (tags segment) cellbarcode)
  end.

(** Lines 157-158: [cells is not None and cell_barcode is not None] and
    [cell_barcode not in cells]. *)
Definition not_in_cells (cells : option (list string))
    (cell_barcode : option string) : bool :=
  match cells, cell_barcode with
  | Some cs, Some bc => bool_decide (bc ∉ cs)
  | _, _ => false
  end.

Definition updateFragmentDict (fragments : gmap string fragment)
    (segment : AlignedSegment) (min_mapq : Z) (cellbarcode : string)
    (readname_barcode : option regex) (cells : option (list string))
  : result (gmap string fragment) :=
  cell_barcode ← read_barcode segment cellbarcode readname_barcode;
  if not_in_cells cells cell_barcode then Ok fragments
  else
    let mapq := mapping_quality segment in
    if Z.ltb mapq min_mapq then Ok fragments
    else
      let chromosome := reference_name segment in
      let qname := query_name segment in
      let rstart := reference_start segment in
      let qstart := query_alignment_start segment in
      match reference_end segment with
      | None => Ok fragments
      | Some rend =>
          let rstart := rstart + qstart in
          let '(rstart, rend) :=
            if is_reverse segment then (rstart, rend - 5)
            else (rstart + 4, rend) in
          match fragments !! qname with
          | Some entry =>
              if is_reverse segment
              then Ok (<[qname := set_end entry rend]> fragments)
              else Ok (<[qname := set_start entry rstart]> fragments)
          | None =>
              let entry :=
                {| chrom := chromosome; start := None; end_ := None;
                   cell := cell_barcode |} in
              if is_reverse segment
              then Ok (<[qname := set_end entry rend]> fragments)
              else Ok (<[qname := set_start entry rstart]> fragments)
          end
      end.

(** The loop [for i in inputBam.fetch(..): fragment_dict =
    updateFragmentDict(fragment_dict, i, ..)] of [getFragments]. *)
Fixpoint fetch_loop (segments : list AlignedSegment)
    (fragment_dict : gmap string fragment) (min_mapq : Z) (cellbarcode : string)
    (readname_barcode : option regex) (cells : option (list string))
  : result (gmap string fragment) :=
  match segments with
  | [] => Ok fragment_dict
  | i :: rest =>
      fragment_dict ← updateFragmentDict fragment_dict i min_mapq cellbarcode
                        readname_barcode cells;
      fetch_loop rest fragment_dict min_mapq cellbarcode readname_barcode cells
  end.

(** ** filterFragmentDict *)

(** The loop [for key in allkey: if not all(fragments[key].values()):
    del fragments[key]]. *)
Fixpoint filter_loop (allkey : list string) (fragments : gmap string fragment)
  : result (gmap string fragment) :=
  match allkey with
  | [] => Ok fragments
  | key :: rest =>
      match fragments !! key with
      | None => Raise KeyError
      | Some x =>
          if forallb truthy (values x)
          then filter_loop rest fragments
          else filter_loop rest (delete key fragments)
      end
  end.

Definition filterFragmentDict (fragments : gmap string fragment)
  : result (gmap string fragment) :=
  let allkey := (map_to_list fragments).*1 in
  filter_loop allkey fragments.

(** ** Strings: ["|".join(..)] and [s.split("|")] *)

Fixpoint join (sep : string) (parts : list string) : string :=
  match parts with
  | [] => ""
  | [a] => a
  | a :: rest => a +:+ sep +:+ join sep rest
  end.

(** [s.split(sep)] for a one-character separator: every occurrence of the
    separator cuts, so the result has one more part than there are
    separators (and [""] splits into [[""]]). *)
Fixpoint split (sep : ascii) (s : string) : list string :=
  match s with
  | EmptyString => [""]
  | String c s' =>
      if decide (c = sep) then "" :: split sep s'
      else match split sep s' with
           | part :: parts => String c part :: parts
           | [] => [String c ""]
           end
  end.

(** ** Insertion-ordered dictionaries local to [collapseFragments] *)

Section dict.
Context {K V : Type} `{EqDecision K}.

(** [d[k]], [None] standing for the [KeyError]. *)
Fixpoint dict_get (d : list (K * V)) (k : K) : option V :=
  match d with
  | [] => None
  | (k', v) :: rest => if decide (k' = k) then Some v else dict_get rest k
  end.

(** [d[k] = v]: an existing key keeps its position. *)
Fixpoint dict_set (k : K) (v : V) (d : list (K * V)) : list (K * V) :=
  match d with
  | [] => [(k, v)]
  | (k', v') :: rest =>
      if decide (k' = k) then (k', v) :: rest
      else (k', v') :: dict_set k v rest
  end.

(** [dict(zip(ks, vs))] *)
Definition dict_zip (ks : list K) (vs : list V) : list (K * V) :=
  foldl (λ d kv, dict_set kv.1 kv.2 d) [] (zip ks vs).

(** [d[k]] as a statement that may raise. *)
Definition getitem (d : list (K * V)) (k : K) : result V :=
  match dict_get d k with
  | Some v => Ok v
  | None => Raise KeyError
  end.
End dict.

(** [Counter(l).items()]: every distinct string with its number of
    occurrences, in order of first occurrence. *)
Definition Counter (l : list string) : list (string * nat) :=
  foldl (λ counts k, dict_set k (S (default 0%nat (dict_get counts k))) counts) [] l.

(** [max(l)] of a list of non-negative integers; [ValueError] on the empty
    list. *)
Definition py_max (l : list nat) : result nat :=
  match l with
  | [] => Raise ValueError
  | x :: rest => Ok (foldl Nat.max x rest)
  end.

(** [mapM]: a list comprehension whose body may raise. *)
Fixpoint comprehension {A B : Type} (f : A → result B) (l : list A)
  : result (list B) :=
  match l with
  | [] => Ok []
  | x :: rest => y ← f x; ys ← comprehension f rest; Ok (y :: ys)
  end.

(** ** The sparse count matrix

    [sparse.coo_matrix((data, (row, col)), shape)] followed by [tocsr()]:
    the three parallel lists are kept as one list of [(row, col, data)]
    entries; entries at the same position add up. *)

Record matrix : Type := Matrix {
  entries : list (nat * nat * nat);
  shape : nat * nat
}.

(** [mat[r, c]] *)
Definition mat_get (mat : matrix) (r c : nat) : nat :=
  sum_list ((λ e, e.2) <$>
    filter (λ e, e.1.1 = r ∧ e.1.2 = c) (entries mat)).

(** Row [r] of [mat.sum(axis=1)]. *)
Definition mat_row_sum (mat : matrix) (r : nat) : nat :=
  sum_list ((λ e, e.2) <$> filter (λ e, e.1.1 = r) (entries mat)).

(** [mat.sum(axis=1).tolist()], each one-element row [[s]] kept as [s]. *)
Definition sum_axis1 (mat : matrix) : list nat :=
  mat_row_sum mat <$> seq 0 (shape mat).1.

(** Index of the first greatest element of a row ([0] for an empty row). *)
Fixpoint argmax_from (best_i best i : nat) (l : list nat) : nat :=
  match l with
  | [] => best_i
  | x :: rest =>
      if (best <? x)%nat then argmax_from i x (S i) rest
      else argmax_from best_i best (S i) rest
  end.

Definition argmax (l : list nat) : nat :=
  match l with
  | [] => 0%nat
  | x :: rest => argmax_from 0 x 1 rest
  end.

(** [np.argmax(mat, axis=1).tolist()], each [[c]] kept as [c]: for every row
    the first column that holds the row's greatest value. *)
Definition argmax_axis1 (mat : matrix) : list nat :=
  (λ r, argmax (mat_get mat r <$> seq 0 (shape mat).2)) <$> seq 0 (shape mat).1.

(** ** Alignment files

    An opened [pysam.AlignmentFile], seen through the one method that is
    called on it: [fetch(contig, start, stop)] gives the reads of an
    interval in file order, or raises (a file without an index, a contig
    the header does not have).  An exception that pysam raises while the
    reads are iterated is not told apart from one raised by the call: the
    loop body of [getFragments] writes to its local dictionary only. *)
Record alignment_file : Type := {
  fetch : string → Z → Z → result (list AlignedSegment)
}.

(** ** The deduplicator *)

Section collapse.

(** [set(l)] seen as the list of its elements in iteration order.  The
    order is the hash table's; nothing is assumed about it here. *)
Variable pyset : ∀ A : Type, EqDecision A → list A → list A.
Arguments pyset {_ _} _.

(** [id_lookup]: [idx = [temp[x] for x in l]] with
    [temp = defaultdict(lambda: len(temp))]. *)
Fixpoint id_idx {K : Type} `{EqDecision K} (temp : list (K * nat)) (l : list K)
  : list nat :=
  match l with
  | [] => []
  | x :: rest =>
      match dict_get temp x with
      | Some i => i :: id_idx temp rest
      | None =>
          let i := length temp in
          i :: id_idx (dict_set x i temp) rest
      end
  end.

Definition id_lookup {K : Type} `{EqDecision K} (l : list K) : list (K * nat) :=
  let idx := id_idx [] l in
  dict_zip (pyset l) (pyset idx).

(** The loop over [counts.items()] that fills [row], [col] and [data]. *)
Definition coo_entry (frag_id_lookup : list (string * nat))
    (bc_id_lookup : list (pyval * nat)) (i : string * nat)
  : result (nat * nat * nat) :=
  let rowstr := take 3 (split "|" i.1) in
  bcstr ← match split "|" i.1 !! 3%nat with
          | Some s => Ok s
          | None => Raise IndexError
          end;
  r ← getitem frag_id_lookup (join "|" rowstr);
  c ← getitem bc_id_lookup (PStr bcstr);
  Ok (r, c, i.2).

Definition collapseFragments (fragments : gmap string fragment)
  : result (list (list pyval)) :=
  let fraglist := values <$> (map_to_list fragments).*2 in
  let fragcoords_with_bc := (λ x, join "|" (str <$> x)) <$> fraglist in
  let fragcoords := (λ x, join "|" (str <$> take 3 x)) <$> fraglist in
  let cellbarcodes := (λ x, default PNone (x !! 3%nat)) <$> fraglist in
  let counts := Counter fragcoords_with_bc in
  let frag_id_lookup := id_lookup fragcoords in
  let bc_id_lookup := id_lookup cellbarcodes in
  coo ← comprehension (coo_entry frag_id_lookup bc_id_lookup) counts;
  max_frag ← py_max frag_id_lookup.*2;
  max_bc ← py_max bc_id_lookup.*2;
  let mat := Matrix coo (S max_frag, S max_bc) in
  let rowmax := argmax_axis1 mat in
  let rowsum := sum_axis1 mat in
  let frag_inverse := dict_zip frag_id_lookup.*2 frag_id_lookup.*1 in
  let bc_inverse := dict_zip bc_id_lookup.*2 bc_id_lookup.*1 in
  collapsed_frags ← comprehension (getitem frag_inverse) (seq 0 (shape mat).1);
  collapsed_barcodes ← comprehension (getitem bc_inverse) rowmax;
  Ok ((λ fbs : string * pyval * nat,
         ((PStr <$> split "|" fbs.1.1) ++ [fbs.1.2; PInt (Z.of_nat fbs.2)])%list)
        <$> zip (zip collapsed_frags collapsed_barcodes) rowsum).

(** ** getFragments *)

(** [pysam.AlignmentFile(bam, "rb")] (line 106): the opened file, or the
    exception of opening it ([OSError] and its subclasses when the path
    cannot be read). *)
Variable AlignmentFile : string → result alignment_file.

(** What [re.compile] would return, were the name [re] bound. *)
Variable re_compile : string → regex.

(** The names bound in the module's namespace: its imports (lines 1-7) and
    its functions.  [re] is not among them, and it is not a builtin. *)
Definition module_globals : list string :=
  ["pysam"; "utils"; "sparse"; "np"; "Counter"; "defaultdict"; "Pool";
   "functools"; "writeFragments"; "collapseFragments"; "id_lookup";
   "getFragments"; "updateFragmentDict"; "filterFragmentDict";
   "condenseFragList"; "fragments"].

(** Evaluating a global name. *)
Definition global_name (name : string) : result unit :=
  if bool_decide (name ∈ module_globals) then Ok () else Raise NameError.

Definition getFragments (interval : string * Z) (bam : string)
    (min_mapq : Z) (cellbarcode : string) (readname_barcode : option string)
    (cells : option (list string)) : result (list (list pyval)) :=
  let fragment_dict : gmap string fragment := ∅ in
  inputBam ← AlignmentFile bam;
  readname_barcode ←
    match readname_barcode with
    | Some pattern => _ ← global_name "re"; Ok (Some (re_compile pattern))
    | None => Ok None
    end;
  segments ← fetch inputBam interval.1 0 interval.2;
  fragment_dict ← fetch_loop segments fragment_dict
                    min_mapq cellbarcode readname_barcode cells;
  fragment_dict ← filterFragmentDict fragment_dict;
  collapseFragments fragment_dict.

End collapse.

(** ** condenseFragList *)

(** The three nested loops, each [y] appended to [x] in turn. *)
Definition condenseFragList {A : Type} (fraglist : list (list (list A)))
  : list A :=
  foldl (λ x i, foldl (λ x j, foldl (λ x y, x ++ [y]) x j) x i) [] fraglist.

(** ** writeFragments *)

Definition tab : ascii := "009"%char.
Definition newline : ascii := "010"%char.

(** The files the function can touch: the text held under each path, and
    the paths that [open(path, "w")] refuses, each with the exception it
    raises. *)
Record filesystem : Type := {
  files : gmap string string;
  denied : string → option exn
}.

(** [open(filepath, "w")]: the file is created or cut to nothing. *)
Definition open_w (filepath : string) (fs : filesystem) : result filesystem :=
  match denied fs filepath with
  | Some e => Raise e
  | None => Ok {| files := <[filepath := ""]> (files fs); denied := denied fs |}
  end.

(** [outf.write(text)] on the file opened at [filepath]. *)
Definition write (filepath text : string) (fs : filesystem) : filesystem :=
  {| files := <[filepath := default "" (files fs !! filepath) +:+ text]> (files fs);
     denied := denied fs |}.

Definition writeFragments (fragments : list (list pyval)) (filepath : string)
    (fs : filesystem) : result filesystem :=
  fs ← open_w filepath fs;
  Ok (foldl (λ fs i,
        let outstr := join (String tab "") (str <$> i) in
        write filepath (outstr +:+ String newline "") fs) fs fragments).

(** ** Predicates used in the statements *)

(** A read gets past every early [return fragments] of [updateFragmentDict]:
    its barcode is read without an exception, the allow-list (if any) has
    the barcode (if any), the mapping quality reaches the threshold and the
    reference end is known. *)
Definition accepted (segment : AlignedSegment) (min_mapq : Z)
    (cellbarcode : string) (readname_barcode : option regex)
    (cells : option (list string)) (cell_barcode : option string) (rend : Z)
  : Prop :=
  read_barcode segment cellbarcode readname_barcode = Ok cell_barcode ∧
  (∀ cs bc, cells = Some cs → cell_barcode = Some bc → bc ∈ cs) ∧
  min_mapq ≤ mapping_quality segment ∧
  reference_end segment = Some rend.

(** No field of the entry is null or falsy. *)
Definition complete (x : fragment) : Prop :=
  (∃ c, chrom x = Some c ∧ c ≠ "") ∧
  (∃ s, start x = Some s ∧ s ≠ 0) ∧
  (∃ e, end_ x = Some e ∧ e ≠ 0) ∧
  (∃ b, cell x = Some b ∧ b ≠ "").


(** The entry written under the read's name by an accepted read: the entry
    already there, or a fresh one, with the read's side set. *)
Definition folded_entry (segment : AlignedSegment) (cell_barcode : option string)
    (rend : Z) (old : option fragment) : fragment :=
  let entry :=
    default {| chrom := reference_name segment; start := None; end_ := None;
               cell := cell_barcode |} old in
  if is_reverse segment then set_end entry (rend - 5)
  else set_start entry
         (reference_start segment + query_alignment_start segment + 4).

(** ** Example inputs *)

(** The regex [[ACGT]+] as a [regex]: the longest run of the four letters at
    the front of the read name, no match when that run is empty. *)
Fixpoint acgt_run (s : string) : string :=
  match s with
  | String c s' =>
      if bool_decide (c ∈ ["A"; "C"; "G"; "T"]%char)
      then String c (acgt_run s') else ""
  | EmptyString => ""
  end.

Definition acgt_prefix : regex :=
  λ s, match acgt_run s with
       | EmptyString => None
       | group => Some group
       end.

(** The reads of the spec's scenario: [R1+] at [(chr1, ref_start=100,
    qstart=2)] and [R1-] at [(chr1, ref_end=250)], barcode [AAAA], mapq 40.
    The fields the scenario leaves open are arguments. *)
Definition R1_fwd (rend : Z) : AlignedSegment :=
  {| query_name := "R1"; tags := [("CB", "AAAA")]; mapping_quality := 40;
     reference_name := Some "chr1"; reference_start := 100;
     reference_end := Some rend; query_alignment_start := 2;
     is_reverse := false |}.

Definition R1_rev (rstart qstart : Z) : AlignedSegment :=
  {| query_name := "R1"; tags := [("CB", "AAAA")]; mapping_quality := 40;
     reference_name := Some "chr1"; reference_start := rstart;
     reference_end := Some 250; query_alignment_start := qstart;
     is_reverse := true |}.

(** A pair whose read name starts with the barcode, and a read whose name
    does not. *)
Definition named_fwd : AlignedSegment :=
  {| query_name := "AAAA:R1"; tags := []; mapping_quality := 40;
     reference_name := Some "chr1"; reference_start := 100;
     reference_end := Some 150; query_alignment_start := 2;
     is_reverse := false |}.

Definition named_rev : AlignedSegment :=
  {| query_name := "AAAA:R1"; tags := []; mapping_quality := 40;
     reference_name := Some "chr1"; reference_start := 200;
     reference_end := Some 250; query_alignment_start := 0;
     is_reverse := true |}.

Definition unnamed_read (mapq : Z) : AlignedSegment :=
  {| query_name := "R2"; tags := []; mapping_quality := mapq;
     reference_name := Some "chr1"; reference_start := 300;
     reference_end := Some 350; query_alignment_start := 0;
     is_reverse := false |}.

(** An alignment file whose contig [chr1] holds the pair whose names carry
    the barcode and one read whose name does not; its header has no other
    contig. *)
Definition reads_bam : alignment_file :=
  {| fetch := λ contig _ _,
       if decide (contig = "chr1")
       then Ok [named_fwd; named_rev; unnamed_read 40]
       else Raise ValueError |}.

(** A file system where [reads.bam] is the one path that opens. *)
Definition one_file (bam : string) : result alignment_file :=
  if decide (bam = "reads.bam") then Ok reads_bam else Raise OSError.

(** An alignment file whose contig [chr1] holds the forward read of a pair
    and nothing of its mate. *)
Definition orphan_bam : alignment_file :=
  {| fetch := λ contig _ _,
       if decide (contig = "chr1") then Ok [R1_fwd 150] else Raise ValueError |}.

(** A deterministic iteration order for sets, used to run the deduplicator
    on examples: the distinct elements as [remove_dups] leaves them. *)
Definition listed_set (A : Type) (H : EqDecision A) (l : list A) : list A :=
  remove_dups l.

(** Whether a character occurs in a string. *)
Fixpoint contains (c : ascii) (s : string) : bool :=
  match s with
  | EmptyString => false
  | String c' s' => if decide (c' = c) then true else contains c s'
  end.

(** The chromosome name and the barcode of an entry are free of the
    separator ["|"] of the composite keys. *)
Definition sep_free (x : fragment) : Prop :=
  (∀ c, chrom x = Some c → contains "|" c = false) ∧
  (∀ b, cell x = Some b → contains "|" b = false).

(** The entry lies at the coordinate [(c, s, e)]. *)
Definition at_coord (c : string) (s e : Z) (x : fragment) : Prop :=
  chrom x = Some c ∧ start x = Some s ∧ end_ x = Some e.

#[global] Instance at_coord_dec c s e x : Decision (at_coord c s e x).
Proof. unfold at_coord. apply _. Defined.

(** The number of fragments of the collection at a coordinate, and the
    number of those that carry a given barcode. *)
Definition count_coord (xs : list fragment) (c : string) (s e : Z) : nat :=
  length (filter (at_coord c s e) xs).

Definition count_coord_cell (xs : list fragment) (c : string) (s e : Z)
    (b : string) : nat :=
  length (filter (λ x, at_coord c s e x ∧ cell x = Some b) xs).

(** The fragments of a mapping, as [fragments.values()] lists them. *)
Definition fragment_list (fragments : gmap string fragment) : list fragment :=
  (map_to_list fragments).*2.

(** The sum of the last fields (the counts) of the deduplicator's rows. *)
Definition row_count (row : list pyval) : Z :=
  match last row with
  | Some (PInt n) => n
  | _ => 0
  end.

Definition total_count (rows : list (list pyval)) : Z :=
  foldr Z.add 0 (row_count <$> rows).

(** The collection of the spec's scenario: two fragments
    [(chr1, 106, 245, AAAA)] and one [(chr1, 106, 245, BBBB)]. *)
Definition scenario_fragments : gmap string fragment :=
  <["R1" := Fragment (Some "chr1") (Some 106) (Some 245) (Some "AAAA")]>
  (<["R2" := Fragment (Some "chr1") (Some 106) (Some 245) (Some "AAAA")]>
  (<["R3" := Fragment (Some "chr1") (Some 106) (Some 245) (Some "BBBB")]> ∅)).

(** One completed fragment on a reference sequence named in the NCBI style,
    with ["|"] in the name. *)
Definition piped_fragments : gmap string fragment :=
  {[ "R1" := Fragment (Some "gi|9626243|ref|NC_001416.1|") (Some 106)
               (Some 245) (Some "AAAA") ]}.

(** The state of [temp] once [id_lookup] has run through [l]. *)
Fixpoint id_temp {K : Type} `{EqDecision K} (temp : list (K * nat)) (l : list K)
  : list (K * nat) :=
  match l with
  | [] => temp
  | x :: rest =>
      match dict_get temp x with
      | Some _ => id_temp temp rest
      | None => id_temp (dict_set x (length temp) temp) rest
      end
  end.

(** The total of the counts of the keys that satisfy [P]. *)
Definition weight {K : Type} (P : K → Prop) `{∀ k, Decision (P k)}
    (counts : list (K * nat)) : nat :=
  sum_list (snd <$> filter (λ kv, P kv.1) counts).

(** [temp] numbers its keys in order of insertion. *)
Definition numbered {K : Type} (temp : list (K * nat)) : Prop :=
  NoDup temp.*1 ∧ temp.*2 = seq 0 (length temp).

(** The composite keys of an entry, as [collapseFragments] forms them: the
    coordinate with the barcode, the coordinate alone, and the barcode. *)
Definition full_key (x : fragment) : string := join "|" (str <$> values x).
Definition coord_key (x : fragment) : string :=
  join "|" (str <$> take 3 (values x)).
Definition barcode_key (x : fragment) : pyval :=
  default PNone (values x !! 3%nat).

(** The row and the column that the loop over [counts.items()] finds for a
    key, [0] standing in where a lookup would raise. *)
Definition key_row (frag_id_lookup : list (string * nat)) (k : string) : nat :=
  default 0%nat (dict_get frag_id_lookup (join "|" (take 3 (split "|" k)))).
Definition key_col (bc_id_lookup : list (pyval * nat)) (k : string) : nat :=
  default 0%nat
    (dict_get bc_id_lookup (PStr (default "" (split "|" k !! 3%nat)))).

(** The lines of a fragment file: one per row, the fields joined by tabs. *)
Definition fragment_line (row : list pyval) : string :=
  join (String tab "") (str <$> row).

(** No field of the row, printed, holds a tab or a newline, and the row has
    a field. *)
Definition printable (row : list pyval) : Prop :=
  row ≠ [] ∧
  ∀ v, v ∈ row →
    contains tab (str v) = false ∧ contains newline (str v) = false.

(** A file system with no file and no path refused. *)
Definition empty_fs : filesystem := {| files := ∅; denied := λ _, None |}.
(** * Properties *)

(** ** The completeness filter *)

Lemma truthy_of_opt_str (o : option string) :
  truthy (of_opt_str o) = true ↔ ∃ c, o = Some c ∧ c ≠ "".
Proof.
  destruct o as [c|]; simpl.
  - rewrite negb_true_iff, String.eqb_neq. split; [eauto|].
    by intros (c' & [= <-] & Hc).
  - split; [done|]. by intros (c & Hc & _).
Qed.

Lemma truthy_of_opt_int (o : option Z) :
  truthy (of_opt_int o) = true ↔ ∃ z, o = Some z ∧ z ≠ 0.
Proof.
  destruct o as [z|]; simpl.
  - rewrite negb_true_iff, Z.eqb_neq. split; [eauto|].
    by intros (z' & [= <-] & Hz).
  - split; [done|]. by intros (z & Hz & _).
Qed.

Lemma all_truthy_complete (x : fragment) :
  forallb truthy (values x) = true ↔ complete x.
Proof.
  unfold complete, values. simpl.
  rewrite !andb_true_iff, !truthy_of_opt_str, !truthy_of_opt_int. tauto.
Qed.

Lemma filter_loop_filter (allkey : list string) (fragments : gmap string fragment) :
  NoDup allkey →
  (∀ key, key ∈ allkey → is_Some (fragments !! key)) →
  filter_loop allkey fragments =
    Ok (filter (λ kx, kx.1 ∈ allkey → forallb truthy (values kx.2) = true) fragments).
Proof.
  revert fragments. induction allkey as [|key rest IH]; intros fragments Hnd Hin.
  - cbn [filter_loop]. f_equal. symmetry. apply map_filter_id.
    intros i x _ Hi. cbn [fst] in Hi. by apply elem_of_nil in Hi.
  - apply NoDup_cons in Hnd as [Hkey Hnd]. cbn [filter_loop].
    destruct (Hin key) as [x Hx]; [left|]. rewrite Hx.
    destruct (forallb truthy (values x)) eqn:Hall.
    + rewrite IH; [|done|intros k Hk; apply Hin; by right]. f_equal.
      apply map_eq; intros i. apply option_eq; intros y.
      rewrite !map_lookup_filter_Some. cbn [fst snd]. split.
      * intros [Hi Hy]. split; [done|]. intros [->|Hr]%elem_of_cons; [|auto].
        congruence.
      * intros [Hi Hy]. split; [done|]. intros Hr. apply Hy. by right.
    + rewrite IH; [|done|].
      * f_equal. apply map_eq; intros i. apply option_eq; intros y.
        rewrite !map_lookup_filter_Some. cbn [fst snd]. split.
        -- intros [[Hne Hi]%lookup_delete_Some Hy]. split; [done|].
           intros [->|Hr]%elem_of_cons; [done|auto].
        -- intros [Hi Hy]. destruct (decide (i = key)) as [->|Hne].
           ++ assert (y = x) as -> by congruence.
              rewrite Hall in Hy. discriminate Hy. by left.
           ++ split; [by apply lookup_delete_Some|]. intros Hr. apply Hy. by right.
      * intros k Hk. rewrite lookup_delete_ne; [apply Hin; by right|].
        intros ->. done.
Qed.

Lemma filterFragmentDict_filter (fragments : gmap string fragment) :
  filterFragmentDict fragments =
    Ok (filter (λ kx, forallb truthy (values kx.2) = true) fragments).
Proof.
  unfold filterFragmentDict. rewrite filter_loop_filter.
  - f_equal. apply map_filter_ext. intros i x Hi. cbn [fst snd]. split; [|auto].
    intros H. apply H. apply list_elem_of_fmap. exists (i, x). split; [done|].
    by apply elem_of_map_to_list.
  - apply NoDup_fst_map_to_list.
  - intros key [[k x] [-> Hkx]]%list_elem_of_fmap.
    apply elem_of_map_to_list in Hkx. by exists x.
Qed.

(** C4. The completeness filter returns normally, and its result holds
    exactly the entries of the input none of whose fields [chrom], [start],
    [end], [cell] is null or falsy (an empty string, or a [start] or [end]
    of zero), each under its key and with its fields as they were. *)
Theorem filterFragmentDict_exact (fragments : gmap string fragment) :
  ∃ kept, filterFragmentDict fragments = Ok kept ∧
    ∀ key x, kept !! key = Some x ↔ fragments !! key = Some x ∧ complete x.
Proof.
  eexists. split; [apply filterFragmentDict_filter|].
  intros key x. rewrite map_lookup_filter_Some. cbn [snd].
  by rewrite all_truthy_complete.
Qed.

(** ** The segment filter and the fragment assembler *)

(** Discharges [accepted] for a concrete read without allow-list. *)
Ltac accepted_read :=
  unfold accepted;
  split; [reflexivity|];
  split; [intros ? ? [=]|];
  split; [simpl; lia|reflexivity].

Lemma updateFragmentDict_accepted fragments segment min_mapq cellbarcode
    readname_barcode cells cell_barcode rend :
  accepted segment min_mapq cellbarcode readname_barcode cells cell_barcode rend →
  updateFragmentDict fragments segment min_mapq cellbarcode readname_barcode cells
  = Ok (<[query_name segment :=
            folded_entry segment cell_barcode rend
              (fragments !! query_name segment)]> fragments).
Proof.
  intros (Hbc & Hcells & Hmapq & Hrend).
  unfold updateFragmentDict, folded_entry. rewrite Hbc. simpl.
  assert (not_in_cells cells cell_barcode = false) as ->.
  { destruct cells as [cs|], cell_barcode as [bc|]; try done.
    apply bool_decide_eq_false. intros Hn. apply Hn. by eapply Hcells. }
  assert ((mapping_quality segment <? min_mapq) = false) as ->
    by (apply Z.ltb_ge; lia).
  rewrite Hrend.
  destruct (is_reverse segment), (fragments !! query_name segment); done.
Qed.

Lemma updateFragmentDict_cases fragments segment min_mapq cellbarcode
    readname_barcode cells :
  read_barcode segment cellbarcode readname_barcode = Raise AttributeError ∧
    updateFragmentDict fragments segment min_mapq cellbarcode readname_barcode
      cells = Raise AttributeError
  ∨ (∃ cell_barcode,
       read_barcode segment cellbarcode readname_barcode = Ok cell_barcode) ∧
    updateFragmentDict fragments segment min_mapq cellbarcode readname_barcode
      cells = Ok fragments
  ∨ ∃ cell_barcode rend,
      accepted segment min_mapq cellbarcode readname_barcode cells cell_barcode
        rend.
Proof.
  destruct (read_barcode segment cellbarcode readname_barcode)
    as [cell_barcode|e] eqn:Hbc.
  - destruct (not_in_cells cells cell_barcode) eqn:Hcells.
    { right; left. split; [eauto|]. unfold updateFragmentDict.
      rewrite Hbc. simpl. by rewrite Hcells. }
    destruct (mapping_quality segment <? min_mapq) eqn:Hmapq.
    { right; left. split; [eauto|]. unfold updateFragmentDict.
      rewrite Hbc. simpl. by rewrite Hcells, Hmapq. }
    destruct (reference_end segment) as [rend|] eqn:Hrend.
    + right; right. exists cell_barcode, rend. repeat split; try done.
      * intros cs bc -> ->. apply bool_decide_eq_false in Hcells.
        by apply dec_stable.
      * apply Z.ltb_ge in Hmapq. lia.
    + right; left. split; [eauto|]. unfold updateFragmentDict.
      rewrite Hbc. simpl. by rewrite Hcells, Hmapq, Hrend.
  - assert (e = AttributeError) as ->.
    { unfold read_barcode in Hbc.
      destruct readname_barcode as [re|]; [|done].
      destruct (re (qname segment)); congruence. }
    left. split; [done|]. unfold updateFragmentDict. by rewrite Hbc.
Qed.

Lemma updateFragmentDict_rejected fragments segment min_mapq cellbarcode
    readname_barcode cells cell_barcode :
  read_barcode segment cellbarcode readname_barcode = Ok cell_barcode →
  mapping_quality segment < min_mapq ∨ reference_end segment = None →
  updateFragmentDict fragments segment min_mapq cellbarcode readname_barcode cells
  = Ok fragments.
Proof.
  intros Hbc Hrej. unfold updateFragmentDict. rewrite Hbc. simpl.
  destruct (not_in_cells cells cell_barcode); [done|].
  destruct (Z.ltb_spec (mapping_quality segment) min_mapq); [done|].
  destruct Hrej as [?| ->]; [lia|done].
Qed.

Lemma folded_entry_sides segment cell_barcode rend old :
  let entry := folded_entry segment cell_barcode rend old in
  if is_reverse segment
  then end_ entry = Some (rend - 5)
  else start entry
       = Some (reference_start segment + query_alignment_start segment + 4).
Proof. unfold folded_entry. by destruct (is_reverse segment). Qed.

Lemma folded_entry_again segment cell_barcode cell_barcode' rend old :
  folded_entry segment cell_barcode' rend
    (Some (folded_entry segment cell_barcode rend old))
  = folded_entry segment cell_barcode rend old.
Proof. unfold folded_entry. simpl. by destruct (is_reverse segment). Qed.

(** C2. An accepted read leaves, under its read name, an entry whose start
    is [reference_start + query_alignment_start + 4] when the read is on the
    forward strand and whose end is [reference_end - 5] when it is on the
    reverse strand.  In particular the forward read at [ref_start=100,
    qstart=2] and the reverse read at [ref_end=250], in either order, give
    the one fragment [(chr1, 106, 245, AAAA)]. *)
Theorem updateFragmentDict_shift :
  (∀ fragments segment min_mapq cellbarcode readname_barcode cells
     cell_barcode rend,
     accepted segment min_mapq cellbarcode readname_barcode cells cell_barcode
       rend →
     ∃ fragments' entry,
       updateFragmentDict fragments segment min_mapq cellbarcode
         readname_barcode cells = Ok fragments' ∧
       fragments' !! query_name segment = Some entry ∧
       if is_reverse segment
       then end_ entry = Some (rend - 5)
       else start entry
            = Some (reference_start segment + query_alignment_start segment + 4))
  ∧ (∀ rend_fwd rstart_rev qstart_rev,
       let pair : gmap string fragment :=
         {[ "R1" := Fragment (Some "chr1") (Some 106) (Some 245) (Some "AAAA") ]} in
       fetch_loop [R1_fwd rend_fwd; R1_rev rstart_rev qstart_rev] ∅ 30 "CB"
         None None = Ok pair ∧
       fetch_loop [R1_rev rstart_rev qstart_rev; R1_fwd rend_fwd] ∅ 30 "CB"
         None None = Ok pair).
Proof.
  split.
  - intros fragments segment min_mapq cellbarcode readname_barcode cells
      cell_barcode rend Hacc.
    eexists _, _. split; [by apply updateFragmentDict_accepted|].
    split; [apply lookup_insert_eq|]. apply folded_entry_sides.
  - intros rend_fwd rstart_rev qstart_rev pair. unfold pair.
    split; vm_compute; reflexivity.
Qed.

Lemma updateFragmentDict_shift_witness :
  ∃ fragments' entry,
    updateFragmentDict ∅ (R1_fwd 150) 30 "CB" None None = Ok fragments' ∧
    fragments' !! "R1" = Some entry ∧ start entry = Some 106.
Proof.
  destruct (proj1 updateFragmentDict_shift ∅ (R1_fwd 150) 30 "CB" None None
              (Some "AAAA") 150) as (fragments' & entry & Hup & Hlook & Hside).
  - accepted_read.
  - exists fragments', entry. repeat split; [exact Hup|exact Hlook|exact Hside].
Defined.

(** C7. An accepted read whose read name already has an entry changes, on
    that entry, only the field of its strand ([end] for a reverse read,
    [start] for a forward read): [chrom], [cell] and the other coordinate
    stay as stored, whatever barcode the later read carries, and no other
    entry is touched. *)
Theorem updateFragmentDict_existing fragments segment min_mapq cellbarcode
    readname_barcode cells cell_barcode rend entry :
  accepted segment min_mapq cellbarcode readname_barcode cells cell_barcode rend →
  fragments !! query_name segment = Some entry →
  ∃ fragments' entry',
    updateFragmentDict fragments segment min_mapq cellbarcode readname_barcode
      cells = Ok fragments' ∧
    fragments' !! query_name segment = Some entry' ∧
    chrom entry' = chrom entry ∧
    cell entry' = cell entry ∧
    (if is_reverse segment
     then start entry' = start entry ∧ end_ entry' = Some (rend - 5)
     else end_ entry' = end_ entry ∧
          start entry'
          = Some (reference_start segment + query_alignment_start segment + 4)) ∧
    ∀ key, key ≠ query_name segment → fragments' !! key = fragments !! key.
Proof.
  intros Hacc Hentry.
  eexists _, _. split; [by apply updateFragmentDict_accepted|].
  split; [apply lookup_insert_eq|]. rewrite Hentry. unfold folded_entry. simpl.
  repeat split.
  - by destruct (is_reverse segment).
  - by destruct (is_reverse segment).
  - by destruct (is_reverse segment).
  - intros key Hne. by rewrite lookup_insert_ne.
Qed.

Lemma updateFragmentDict_existing_witness :
  ∃ fragments' entry',
    updateFragmentDict
      {[ "R1" := Fragment (Some "chr1") (Some 106) None (Some "AAAA") ]}
      (R1_rev 200 0) 30 "CB" None None = Ok fragments' ∧
    fragments' !! "R1" = Some entry' ∧
    chrom entry' = Some "chr1" ∧ cell entry' = Some "AAAA" ∧
    start entry' = Some 106 ∧ end_ entry' = Some 245.
Proof.
  destruct (updateFragmentDict_existing
              {[ "R1" := Fragment (Some "chr1") (Some 106) None (Some "AAAA") ]}
              (R1_rev 200 0) 30 "CB" None None (Some "AAAA") 250
              (Fragment (Some "chr1") (Some 106) None (Some "AAAA")))
    as (fragments' & entry' & Hup & Hlook & Hchrom & Hcell & [Hstart Hend] & _).
  - accepted_read.
  - apply lookup_singleton_eq.
  - exists fragments', entry'. repeat split; assumption.
Defined.

(** C8, as the code has it.  Folding a read in a second time changes
    nothing: whenever [updateFragmentDict] returns a mapping for a read,
    running it again on that mapping with the same read returns the very
    same mapping. *)
Theorem updateFragmentDict_twice fragments segment min_mapq cellbarcode
    readname_barcode cells fragments' :
  updateFragmentDict fragments segment min_mapq cellbarcode readname_barcode
    cells = Ok fragments' →
  updateFragmentDict fragments' segment min_mapq cellbarcode readname_barcode
    cells = Ok fragments'.
Proof.
  intros Hup.
  destruct (updateFragmentDict_cases fragments segment min_mapq cellbarcode
              readname_barcode cells)
    as [[_ Hraise]|[[[bc Hbc] Hsame]|(bc & rend & Hacc)]].
  - congruence.
  - assert (fragments' = fragments) as -> by congruence. exact Hsame.
  - rewrite (updateFragmentDict_accepted _ _ _ _ _ _ _ _ Hacc) in Hup.
    injection Hup as <-.
    rewrite (updateFragmentDict_accepted _ _ _ _ _ _ _ _ Hacc).
    by rewrite lookup_insert_eq, folded_entry_again, insert_insert_eq.
Qed.

Lemma updateFragmentDict_twice_witness :
  updateFragmentDict
    {[ "R1" := Fragment (Some "chr1") (Some 106) None (Some "AAAA") ]}
    (R1_fwd 150) 30 "CB" None None
  = Ok {[ "R1" := Fragment (Some "chr1") (Some 106) None (Some "AAAA") ]}.
Proof.
  apply (updateFragmentDict_twice ∅ (R1_fwd 150) 30 "CB" None None).
  reflexivity.
Defined.

(** C8, as stated, fails: the forward read of the scenario folded in twice
    gives the mapping it gives when folded in once. *)
Lemma updateFragmentDict_twice_same :
  ∃ once,
    fetch_loop [R1_fwd 150] ∅ 30 "CB" None None = Ok once ∧
    fetch_loop [R1_fwd 150; R1_fwd 150] ∅ 30 "CB" None None = Ok once.
Proof.
  eexists. split; [reflexivity|]. vm_compute. reflexivity.
Qed.

Lemma folded_entry_incomplete segment cell_barcode rend :
  forallb truthy (values (folded_entry segment cell_barcode rend None)) = false.
Proof.
  unfold folded_entry. simpl.
  destruct (is_reverse segment); simpl; by rewrite ?andb_false_r.
Qed.

(** C6, as the code has it.  A read whose barcode is read without an
    exception and whose mapping quality is below the threshold, or whose
    reference end is unknown, leaves the mapping as it was.  If its mate is
    an accepted read of a pair not seen before, then, whichever of the two
    comes first, the pair's entry stays half filled and the completeness
    filter drops it. *)
Theorem updateFragmentDict_rejects fragments segment min_mapq cellbarcode
    readname_barcode cells cell_barcode :
  read_barcode segment cellbarcode readname_barcode = Ok cell_barcode →
  mapping_quality segment < min_mapq ∨ reference_end segment = None →
  updateFragmentDict fragments segment min_mapq cellbarcode readname_barcode
    cells = Ok fragments ∧
  ∀ mate mate_barcode mate_rend,
    query_name mate = query_name segment →
    fragments !! query_name segment = None →
    accepted mate min_mapq cellbarcode readname_barcode cells mate_barcode
      mate_rend →
    ∃ fragments' kept,
      fetch_loop [mate; segment] fragments min_mapq cellbarcode
        readname_barcode cells = Ok fragments' ∧
      fetch_loop [segment; mate] fragments min_mapq cellbarcode
        readname_barcode cells = Ok fragments' ∧
      filterFragmentDict fragments' = Ok kept ∧
      kept !! query_name segment = None.
Proof.
  intros Hbc Hrej. split; [by eapply updateFragmentDict_rejected|].
  intros mate mate_barcode mate_rend Hname Hfresh Hacc.
  eexists _, _. simpl.
  rewrite (updateFragmentDict_accepted _ _ _ _ _ _ _ _ Hacc). simpl.
  rewrite !(updateFragmentDict_rejected _ _ _ _ _ _ _ Hbc Hrej). simpl.
  rewrite (updateFragmentDict_accepted _ _ _ _ _ _ _ _ Hacc). simpl.
  split; [done|]. split; [done|].
  split; [apply filterFragmentDict_filter|].
  apply map_lookup_filter_None. right. intros x Hx. cbn [snd].
  rewrite Hname in Hx. rewrite Hfresh, lookup_insert_eq in Hx.
  injection Hx as <-. by rewrite folded_entry_incomplete.
Qed.

Lemma updateFragmentDict_rejects_witness :
  updateFragmentDict
    {[ "R1" := Fragment (Some "chr1") None (Some 245) (Some "AAAA") ]}
    (unnamed_read 20) 30 "CB" None None
  = Ok {[ "R1" := Fragment (Some "chr1") None (Some 245) (Some "AAAA") ]}.
Proof.
  apply (updateFragmentDict_rejects _ (unnamed_read 20) 30 "CB" None None None).
  - reflexivity.
  - left. simpl. lia.
Defined.

(** C6, as stated, fails: with a regex configured, a read of mapping quality
    20 under the threshold 30 whose name the regex does not match is not
    passed over with the mapping returned; the call raises. *)
Lemma updateFragmentDict_low_mapq_raises :
  mapping_quality (unnamed_read 20) < 30 ∧
  updateFragmentDict ∅ (unnamed_read 20) 30 "CB" (Some acgt_prefix) None
  = Raise AttributeError.
Proof. split; [simpl; lia|reflexivity]. Qed.

Lemma updateFragmentDict_no_match fragments segment min_mapq cellbarcode
    (re : regex) cells :
  re (qname segment) = None →
  updateFragmentDict fragments segment min_mapq cellbarcode (Some re) cells
  = Raise AttributeError.
Proof. intros Hre. unfold updateFragmentDict, read_barcode. by rewrite Hre. Qed.

Lemma getFragments_regex_opened
    (pyset : ∀ A : Type, EqDecision A → list A → list A)
    (AlignmentFile : string → result alignment_file)
    (re_compile : string → regex) (interval : string * Z) (bam : string)
    (min_mapq : Z) (cellbarcode pattern : string)
    (cells : option (list string)) (inputBam : alignment_file) :
  AlignmentFile bam = Ok inputBam →
  getFragments pyset AlignmentFile re_compile interval bam min_mapq cellbarcode
    (Some pattern) cells = Raise NameError.
Proof. intros Hopen. unfold getFragments. by rewrite Hopen. Qed.

(** C9, against the code.  A regex is configured and the partition holds a
    read whose name the regex does not match.  The failure is not kept to
    that read: [getFragments] raises [NameError] for the whole partition at
    [re.compile], whatever the other reads are; and [updateFragmentDict],
    handed the compiled regex and that read, lets the [AttributeError] of
    [re_match.group()] on [None] out, with no handler in its way.  No null
    or empty barcode is put in the barcode's place, and no mapping comes
    back. *)
Theorem getFragments_unmatched_name
    (pyset : ∀ A : Type, EqDecision A → list A → list A)
    (AlignmentFile : string → result alignment_file)
    (re_compile : string → regex) (interval : string * Z) (bam : string)
    (min_mapq : Z) (cellbarcode pattern : string)
    (cells : option (list string)) (inputBam : alignment_file)
    (segments : list AlignedSegment) (segment : AlignedSegment) :
  AlignmentFile bam = Ok inputBam →
  fetch inputBam interval.1 0 interval.2 = Ok segments →
  segment ∈ segments →
  re_compile pattern (qname segment) = None →
  getFragments pyset AlignmentFile re_compile interval bam min_mapq cellbarcode
    (Some pattern) cells = Raise NameError ∧
  ∀ fragments,
    updateFragmentDict fragments segment min_mapq cellbarcode
      (Some (re_compile pattern)) cells = Raise AttributeError.
Proof.
  intros Hopen _ _ Hre. split.
  - by eapply getFragments_regex_opened.
  - intros fragments. by apply updateFragmentDict_no_match.
Qed.

Lemma getFragments_unmatched_name_witness :
  getFragments listed_set one_file (λ _, acgt_prefix) ("chr1", 1000)
    "reads.bam" 30 "CB" (Some "[ACGT]+") None = Raise NameError ∧
  ∀ fragments,
    updateFragmentDict fragments (unnamed_read 40) 30 "CB" (Some acgt_prefix)
      None = Raise AttributeError.
Proof.
  apply (getFragments_unmatched_name listed_set one_file (λ _, acgt_prefix)
           ("chr1", 1000) "reads.bam" 30 "CB" "[ACGT]+" None reads_bam
           [named_fwd; named_rev; unnamed_read 40] (unnamed_read 40)).
  - reflexivity.
  - reflexivity.
  - right. right. left.
  - reflexivity.
Defined.




(** ** Composite keys: joining and splitting *)

Lemma split_not_nil sep s : split sep s ≠ [].
Proof.
  destruct s as [|c s]; simpl; [done|].
  destruct (decide (c = sep)); [done|]. by destruct (split sep s).
Qed.

Lemma split_sep_free sep s : contains sep s = false → split sep s = [s].
Proof.
  induction s as [|c s IH]; simpl; [done|].
  destruct (decide (c = sep)); [done|]. intros Hs. by rewrite IH.
Qed.

Lemma split_app sep a b :
  contains sep a = false →
  split sep (a +:+ String sep b) = a :: split sep b.
Proof.
  induction a as [|c a IH]; simpl.
  - intros _. by rewrite decide_True.
  - destruct (decide (c = sep)); [done|]. intros Ha. by rewrite IH.
Qed.

Lemma join_String sep c p ps :
  join sep (String c p :: ps) = String c (join sep (p :: ps)).
Proof. by destruct ps. Qed.

Lemma join_split s : join "|" (split "|" s) = s.
Proof.
  induction s as [|c s IH]; [done|]. cbn [split].
  pose proof (split_not_nil "|" s) as Hnil.
  destruct (split "|" s) as [|p ps]; [done|].
  destruct (decide (c = "|"%char)) as [->|Hc].
  - change (join "|" ("" :: p :: ps)) with (String "|" (join "|" (p :: ps))).
    by rewrite IH.
  - by rewrite join_String, IH.
Qed.

Lemma pretty_N_go_sep_free x s :
  contains "|" s = false → contains "|" (pretty_N_go x s) = false.
Proof.
  revert s. induction (N.lt_wf_0 x) as [x _ IH]; intros s Hs.
  destruct (decide (x = 0%N)) as [->|Hx].
  - by rewrite pretty_N_go_0.
  - rewrite pretty_N_go_step by lia. apply IH.
    + apply N.div_lt; lia.
    + simpl. rewrite Hs. unfold pretty_N_char.
      by repeat case_match.
Qed.

Lemma pretty_Z_sep_free (z : Z) : contains "|" (pretty z) = false.
Proof.
  assert (∀ n : N, contains "|" (pretty n) = false) as HN.
  { intros n. unfold pretty, pretty_N. case_decide; [done|].
    by apply pretty_N_go_sep_free. }
  destruct z as [|p|p]; unfold pretty, pretty_Z; [done|apply HN|].
  simpl. apply HN.
Qed.

(** The keys of a fragment with all four fields present. *)
Lemma split_full_key c s e b :
  contains "|" c = false → contains "|" b = false →
  split "|" (join "|" (str <$> values (Fragment (Some c) (Some s) (Some e) (Some b))))
  = [c; pretty s; pretty e; b].
Proof.
  intros Hc Hb. simpl.
  change (c +:+ "|" +:+ pretty s +:+ "|" +:+ pretty e +:+ "|" +:+ b)
    with (c +:+ String "|" (pretty s +:+ String "|" (pretty e +:+ String "|" b))).
  rewrite !split_app by auto using pretty_Z_sep_free.
  by rewrite split_sep_free.
Qed.

Lemma split_coord_key c s e b :
  contains "|" c = false →
  split "|" (join "|" (str <$> take 3 (values (Fragment (Some c) (Some s) (Some e) b))))
  = [c; pretty s; pretty e].
Proof.
  intros Hc. simpl.
  change (c +:+ "|" +:+ pretty s +:+ "|" +:+ pretty e)
    with (c +:+ String "|" (pretty s +:+ String "|" (pretty e))).
  rewrite !split_app by auto using pretty_Z_sep_free.
  by rewrite split_sep_free by apply pretty_Z_sep_free.
Qed.

(** ** Insertion-ordered dictionaries *)

Section dict_facts.
Context {K V : Type} `{EqDecision K}.
Implicit Types (d : list (K * V)) (k : K) (v : V).
Local Open Scope nat_scope.

Lemma dict_get_Some_elem d k v : dict_get d k = Some v → (k, v) ∈ d.
Proof.
  induction d as [|[k' v'] d IH]; simpl; [done|].
  destruct (decide (k' = k)) as [->|Hne].
  - intros [= ->]. left.
  - intros Hd. right. auto.
Qed.

Lemma dict_get_None d k : dict_get d k = None ↔ k ∉ d.*1.
Proof.
  induction d as [|[k' v'] d IH]; simpl.
  - split; [intros _ Hin; by apply elem_of_nil in Hin|done].
  - destruct (decide (k' = k)) as [->|Hne].
    + split; [done|]. intros Hn. destruct Hn. left.
    + rewrite IH, not_elem_of_cons.
      split; [intros Hk; split; [congruence|done]|by intros [_ Hk]].
Qed.

Lemma dict_get_elem d k v : NoDup d.*1 → (k, v) ∈ d → dict_get d k = Some v.
Proof.
  induction d as [|[k' v'] d IH]; simpl.
  - intros _ Hin. by apply elem_of_nil in Hin.
  - intros [Hk' Hnd]%NoDup_cons [[= -> ->]|Hin]%elem_of_cons.
    + by rewrite decide_True.
    + rewrite decide_False; [auto|]. intros ->. apply Hk'.
      apply list_elem_of_fmap. by exists (k, v).
Qed.

Lemma dict_get_is_Some d k : k ∈ d.*1 → is_Some (dict_get d k).
Proof.
  intros Hk. destruct (dict_get d k) eqn:Hd; [eauto|].
  by apply dict_get_None in Hd.
Qed.

Lemma dict_set_fresh d k v : k ∉ d.*1 → dict_set k v d = d ++ [(k, v)].
Proof.
  induction d as [|[k' v'] d IH]; simpl; [done|].
  intros [Hne Hk]%not_elem_of_cons.
  rewrite decide_False by done. by rewrite IH.
Qed.

Lemma dict_of_pairs_NoDup (acc l : list (K * V)) :
  NoDup (acc.*1 ++ l.*1) →
  foldl (λ d kv, dict_set kv.1 kv.2 d) acc l = acc ++ l.
Proof.
  revert acc. induction l as [|[k v] l IH]; intros acc Hnd; simpl.
  - by rewrite app_nil_r.
  - simpl in Hnd. rewrite dict_set_fresh.
    + rewrite IH.
      * by rewrite <-app_assoc.
      * rewrite fmap_app. simpl. by rewrite <-app_assoc.
    + apply NoDup_app in Hnd as (_ & Hdisj & _). intros Hk.
      apply (Hdisj _ Hk). left.
Qed.

Lemma zip_fst_NoDup (ks : list K) (vs : list V) :
  NoDup ks → NoDup (zip ks vs).*1.
Proof.
  revert vs. induction ks as [|k ks IH]; intros vs Hnd; [constructor|].
  destruct vs as [|v vs]; [constructor|]. simpl.
  apply NoDup_cons in Hnd as [Hk Hnd]. apply NoDup_cons. split; [|auto].
  intros [[k' v'] [Heq Hin]]%list_elem_of_fmap. simpl in Heq. subst k'.
  apply Hk. by apply elem_of_zip_l in Hin.
Qed.

Lemma dict_zip_NoDup (ks : list K) (vs : list V) :
  NoDup ks → dict_zip ks vs = zip ks vs.
Proof.
  intros Hnd. unfold dict_zip. rewrite dict_of_pairs_NoDup; [done|].
  simpl. by apply zip_fst_NoDup.
Qed.
End dict_facts.

(** ** The counter *)

Section counter_facts.
Context (P : string → Prop) `{∀ k, Decision (P k)}.
Local Open Scope nat_scope.

Lemma weight_count_step counts k :
  weight P (dict_set k (S (default 0 (dict_get counts k))) counts)
  = weight P counts + (if decide (P k) then 1 else 0).
Proof.
  unfold weight. induction counts as [|[k' n] counts IH]; simpl.
  - rewrite filter_cons, filter_nil. simpl. by destruct (decide (P k)).
  - destruct (decide (k' = k)) as [->|Hne]; simpl.
    + rewrite !filter_cons. simpl. destruct (decide (P k)); simpl; lia.
    + rewrite !filter_cons. unfold fmap in IH |- *. simpl.
      destruct (decide (P k')); simpl; rewrite IH; lia.
Qed.

Lemma weight_foldl counts l :
  weight P
    (foldl (λ counts k, dict_set k (S (default 0 (dict_get counts k))) counts)
       counts l)
  = weight P counts + length (filter P l).
Proof.
  revert counts. induction l as [|k l IH]; intros counts; simpl.
  - lia.
  - rewrite IH, weight_count_step, filter_cons.
    destruct (decide (P k)); simpl; lia.
Qed.

(** The counts of the keys that satisfy [P] add up to the number of
    elements that satisfy [P]. *)
Lemma weight_Counter l : weight P (Counter l) = length (filter P l).
Proof. unfold Counter. by rewrite weight_foldl. Qed.
End counter_facts.

Lemma Counter_keys l k n : (k, n) ∈ Counter l → k ∈ l.
Proof.
  assert (∀ (counts : list (string * nat)) k' v,
            dict_set k' v counts ⊆ counts ++ [(k', v)] ∨ True) as _ by auto.
  assert (∀ l (counts : list (string * nat)),
            (k, n) ∈ foldl (λ counts k,
                     dict_set k (S (default 0%nat (dict_get counts k))) counts)
                  counts l →
            k ∈ counts.*1 ∨ k ∈ l) as Hgen.
  { clear l. induction l as [|k' l IH]; intros counts Hin; simpl in Hin.
    - left. apply list_elem_of_fmap. by exists (k, n).
    - apply IH in Hin as [Hin|Hin]; [|right; by right].
      assert (∀ v (d : list (string * nat)),
                k ∈ (dict_set k' v d).*1 → k ∈ d.*1 ∨ k = k') as Hset.
      { clear. intros v d. induction d as [|[k0 v0] d IH]; simpl.
        - intros [->|Hn]%elem_of_cons; [by right|by apply elem_of_nil in Hn].
        - destruct (decide (k0 = k')) as [->|Hne]; simpl.
          + intros Hin. by left.
          + intros [->|Hin]%elem_of_cons; [left; left|].
            destruct (IH Hin) as [?|?]; [left; by right|by right]. }
      destruct (Hset _ _ Hin) as [?| ->]; [by left|right; left]. }
  intros Hin. destruct (Hgen l [] Hin) as [Hnil|?]; [|done].
  by apply elem_of_nil in Hnil.
Qed.

(** ** id_lookup *)

Section id_idx_facts.
Context {K : Type} `{EqDecision K}.
Implicit Types (temp : list (K * nat)) (l : list K).
Local Open Scope nat_scope.

Lemma numbered_get temp x i :
  numbered temp → dict_get temp x = Some i → i < length temp.
Proof.
  intros [_ Hval] Hget. apply dict_get_Some_elem in Hget.
  assert (i ∈ temp.*2) as Hi.
  { apply list_elem_of_fmap. by exists (x, i). }
  rewrite Hval in Hi. apply elem_of_seq in Hi. lia.
Qed.

Lemma numbered_set temp x :
  numbered temp → dict_get temp x = None →
  numbered (dict_set x (length temp) temp) ∧
  dict_set x (length temp) temp = temp ++ [(x, length temp)].
Proof.
  intros [Hnd Hval] Hget. apply dict_get_None in Hget.
  rewrite dict_set_fresh by done. split; [|done]. split.
  - rewrite fmap_app. simpl. apply NoDup_app. split; [done|].
    split; [|apply NoDup_singleton].
    intros k Hk ->%list_elem_of_singleton. done.
  - rewrite fmap_app, length_app, Hval. simpl.
    by rewrite Nat.add_1_r, seq_S.
Qed.

Lemma id_temp_numbered temp l : numbered temp → numbered (id_temp temp l).
Proof.
  revert temp. induction l as [|x l IH]; intros temp Hn; simpl; [done|].
  destruct (dict_get temp x) eqn:Hget; [auto|].
  apply IH. by apply numbered_set.
Qed.

Lemma id_temp_length temp l :
  numbered temp → length temp ≤ length (id_temp temp l).
Proof.
  revert temp. induction l as [|x l IH]; intros temp Hn; simpl; [done|].
  destruct (dict_get temp x) eqn:Hget; [auto|].
  destruct (numbered_set temp x Hn Hget) as [Hn' Heq].
  etrans; [|apply IH, Hn']. rewrite Heq, length_app. simpl. lia.
Qed.

Lemma id_temp_keys temp l k :
  numbered temp → k ∈ (id_temp temp l).*1 ↔ k ∈ temp.*1 ∨ k ∈ l.
Proof.
  revert temp. induction l as [|x l IH]; intros temp Hn; simpl.
  - split; [by left|]. intros [?|Hnil]; [done|by apply elem_of_nil in Hnil].
  - destruct (dict_get temp x) eqn:Hget.
    + rewrite IH by done. rewrite elem_of_cons.
      assert (x ∈ temp.*1).
      { apply dict_get_Some_elem in Hget. apply list_elem_of_fmap.
        by eexists (_, _). }
      naive_solver.
    + destruct (numbered_set temp x Hn Hget) as [Hn' Heq].
      rewrite IH by done. rewrite Heq, fmap_app, elem_of_app. simpl.
      rewrite list_elem_of_singleton, elem_of_cons. naive_solver.
Qed.

Lemma id_idx_bound temp l i :
  numbered temp → i ∈ id_idx temp l → i < length (id_temp temp l).
Proof.
  revert temp. induction l as [|x l IH]; intros temp Hn; simpl.
  - intros Hnil. by apply elem_of_nil in Hnil.
  - destruct (dict_get temp x) as [j|] eqn:Hget.
    + intros [->|Hi]%elem_of_cons; [|auto].
      pose proof (numbered_get _ _ _ Hn Hget).
      pose proof (id_temp_length temp l Hn). lia.
    + destruct (numbered_set temp x Hn Hget) as [Hn' Heq].
      intros [->|Hi]%elem_of_cons; [|auto].
      pose proof (id_temp_length _ l Hn') as Hle.
      rewrite Heq, length_app in Hle at 1. simpl in Hle. lia.
Qed.

Lemma id_idx_new temp l i :
  numbered temp → length temp ≤ i < length (id_temp temp l) →
  i ∈ id_idx temp l.
Proof.
  revert temp. induction l as [|x l IH]; intros temp Hn; simpl; [lia|].
  destruct (dict_get temp x) as [j|] eqn:Hget.
  - intros Hi. right. auto.
  - destruct (numbered_set temp x Hn Hget) as [Hn' Heq]. intros Hi.
    destruct (decide (i = length temp)) as [->|Hne]; [left|]. right.
    apply IH; [done|]. rewrite Heq, length_app at 1. simpl. lia.
Qed.

Lemma id_idx_elem l i :
  i ∈ id_idx [] l ↔ i < length (id_temp [] l).
Proof.
  assert (numbered ([] : list (K * nat))) as Hn by (split; [constructor|done]).
  split; [by apply id_idx_bound|].
  intros Hi. apply id_idx_new; [done|]. simpl. lia.
Qed.
End id_idx_facts.

Lemma py_max_seq_perm (l : list nat) (n : nat) :
  l ≡ₚ seq 0 (S n) → py_max l = Ok n.
Proof.
  intros Hperm.
  assert (∀ (l : list nat) x, x ≤ foldl Nat.max x l ∧
            (∀ y, y ∈ l → y ≤ foldl Nat.max x l) ∧
            (foldl Nat.max x l = x ∨ foldl Nat.max x l ∈ l))%nat as Hmax.
  { clear. induction l as [|a l IH]; intros x; simpl.
    - split; [done|]. split; [|by left].
      intros y Hy. by apply elem_of_nil in Hy.
    - destruct (IH (Nat.max x a)) as (Hx & Hall & Hin).
      split; [lia|]. split.
      + intros y [->|Hy]%elem_of_cons; [lia|auto].
      + destruct Hin as [Heq|Hin]; [|right; by right]. rewrite Heq.
        destruct (Nat.max_spec x a) as [[_ ->]|[_ ->]]; [right; left|by left]. }
  destruct l as [|x l].
  { apply Permutation_length in Hperm. simpl in Hperm.
    rewrite length_seq in Hperm. lia. }
  simpl. f_equal. destruct (Hmax l x) as (Hx & Hall & Hin).
  assert (foldl Nat.max x l ∈ x :: l) as Hmem.
  { destruct Hin as [->|?]; [left|by right]. }
  rewrite Hperm in Hmem. apply elem_of_seq in Hmem.
  assert (n ∈ x :: l) as Hn.
  { rewrite Hperm. apply elem_of_seq. lia. }
  apply elem_of_cons in Hn as [->|Hn]; [lia|]. apply Hall in Hn. lia.
Qed.

Section id_lookup_facts.
Variable pyset : ∀ A : Type, EqDecision A → list A → list A.
Hypothesis pyset_NoDup :
  ∀ (A : Type) (H : EqDecision A) (l : list A), NoDup (pyset A H l).
Hypothesis pyset_elem :
  ∀ (A : Type) (H : EqDecision A) (l : list A) (x : A),
    x ∈ pyset A H l ↔ x ∈ l.

Context {K : Type} `{EqDecision K}.
Implicit Types (l : list K) (k : K).
Local Open Scope nat_scope.

(** The lookup pairs the distinct elements with the numbers below their
    count, one to one. *)
Lemma id_lookup_pairs l :
  let d := id_lookup pyset l in
  NoDup d.*1 ∧ (∀ k, k ∈ d.*1 ↔ k ∈ l) ∧ d.*2 ≡ₚ seq 0 (length d).
Proof.
  assert (numbered ([] : list (K * nat))) as Hn0 by (split; [constructor|done]).
  pose proof (id_temp_numbered [] l Hn0) as [HndT HvalT].
  set (ks := pyset K _ l). set (ix := pyset nat _ (id_idx [] l)).
  assert (ks ≡ₚ (id_temp [] l).*1) as Hks.
  { apply NoDup_Permutation; [apply pyset_NoDup|done|].
    intros k. unfold ks. rewrite pyset_elem, id_temp_keys by done.
    split; [by right|]. intros [Hnil|?]; [by apply elem_of_nil in Hnil|done]. }
  assert (ix ≡ₚ seq 0 (length (id_temp [] l))) as Hix.
  { apply NoDup_Permutation; [apply pyset_NoDup|apply NoDup_seq|].
    intros i. unfold ix. rewrite pyset_elem, id_idx_elem, elem_of_seq. lia. }
  assert (length ks = length ix) as Hlen.
  { rewrite Hks, Hix, length_fmap, length_seq. done. }
  assert (id_lookup pyset l = zip ks ix) as Hd.
  { unfold id_lookup. fold ks ix. apply dict_zip_NoDup, pyset_NoDup. }
  simpl. rewrite Hd. rewrite fst_zip, snd_zip by lia.
  split; [apply pyset_NoDup|]. split; [intros k; apply pyset_elem|].
  rewrite length_zip, Hlen, Nat.min_id. rewrite Hix.
  by rewrite length_seq.
Qed.

Lemma id_lookup_get l k :
  k ∈ l →
  ∃ i, dict_get (id_lookup pyset l) k = Some i ∧
       i < length (id_lookup pyset l).
Proof.
  intros Hk. destruct (id_lookup_pairs l) as (Hnd & Hkeys & Hvals).
  destruct (dict_get_is_Some (id_lookup pyset l) k) as [i Hi].
  { by apply Hkeys. }
  exists i. split; [done|]. apply dict_get_Some_elem in Hi.
  assert (i ∈ (id_lookup pyset l).*2) as Hin.
  { apply list_elem_of_fmap. by exists (k, i). }
  rewrite Hvals in Hin. apply elem_of_seq in Hin. lia.
Qed.

Lemma id_lookup_inj l k k' i :
  dict_get (id_lookup pyset l) k = Some i →
  dict_get (id_lookup pyset l) k' = Some i → k = k'.
Proof.
  destruct (id_lookup_pairs l) as (Hnd & Hkeys & Hvals).
  intros Hk%dict_get_Some_elem Hk'%dict_get_Some_elem.
  assert (NoDup (id_lookup pyset l).*2) as Hnd2.
  { rewrite Hvals. apply NoDup_seq. }
  apply list_elem_of_lookup in Hk as [a Ha], Hk' as [b Hb].
  assert (a = b) as ->.
  { eapply NoDup_lookup; [exact Hnd2| |].
    - rewrite list_lookup_fmap, Ha. done.
    - rewrite list_lookup_fmap, Hb. done. }
  congruence.
Qed.

Lemma id_lookup_key_elem l k i :
  dict_get (id_lookup pyset l) k = Some i → k ∈ l.
Proof.
  destruct (id_lookup_pairs l) as (Hnd & Hkeys & Hvals).
  intros Hk%dict_get_Some_elem. apply Hkeys.
  apply list_elem_of_fmap. by exists (k, i).
Qed.

Lemma id_lookup_max l :
  l ≠ [] →
  ∃ m, py_max (id_lookup pyset l).*2 = Ok m ∧
       S m = length (id_lookup pyset l).
Proof.
  intros Hl. destruct (id_lookup_pairs l) as (Hnd & Hkeys & Hvals).
  destruct (length (id_lookup pyset l)) as [|m] eqn:Hlen.
  - destruct l as [|k l]; [done|].
    assert (k ∈ (id_lookup pyset (k :: l)).*1) as Hin by (apply Hkeys; left).
    apply length_zero_iff_nil in Hlen. rewrite Hlen in Hin.
    by apply elem_of_nil in Hin.
  - exists m. split; [|done]. by apply py_max_seq_perm.
Qed.

Lemma id_lookup_inverse l i k :
  let d := id_lookup pyset l in
  dict_get (dict_zip d.*2 d.*1) i = Some k ↔ dict_get d k = Some i.
Proof.
  simpl. destruct (id_lookup_pairs l) as (Hnd & Hkeys & Hvals).
  set (d := id_lookup pyset l) in *.
  assert (NoDup d.*2) as Hnd2 by (rewrite Hvals; apply NoDup_seq).
  rewrite dict_zip_NoDup by done.
  assert (∀ (d : list (K * nat)) i k, (i, k) ∈ zip d.*2 d.*1 ↔ (k, i) ∈ d)
    as Hswap.
  { clear. induction d as [|[k0 i0] d IH]; intros i k; simpl.
    - split; intros Hnil; by apply elem_of_nil in Hnil.
    - rewrite !elem_of_cons, IH. naive_solver. }
  split.
  - intros Hi%dict_get_Some_elem. apply Hswap in Hi.
    by apply dict_get_elem.
  - intros Hk%dict_get_Some_elem. apply dict_get_elem.
    + rewrite fst_zip; [done|]. by rewrite !length_fmap.
    + by apply Hswap.
Qed.

Lemma id_lookup_inverse_get l i :
  let d := id_lookup pyset l in
  i < length d → ∃ k, dict_get (dict_zip d.*2 d.*1) i = Some k.
Proof.
  simpl. intros Hi. destruct (id_lookup_pairs l) as (Hnd & Hkeys & Hvals).
  assert (i ∈ (id_lookup pyset l).*2) as Hin.
  { rewrite Hvals. apply elem_of_seq. lia. }
  apply list_elem_of_fmap in Hin as [[k i'] [Heq Hin]]. simpl in Heq. subst i'.
  exists k. apply id_lookup_inverse. by apply dict_get_elem.
Qed.
End id_lookup_facts.

(** ** List comprehensions that may raise *)

Lemma comprehension_Ok {A B : Type} (f : A → result B) (g : A → B) (l : list A) :
  (∀ x, x ∈ l → f x = Ok (g x)) → comprehension f l = Ok (g <$> l).
Proof.
  induction l as [|x l IH]; intros Hf; simpl; [done|].
  rewrite Hf by left. simpl. rewrite IH; [done|].
  intros y Hy. apply Hf. by right.
Qed.

Lemma comprehension_inv {A B : Type} (f : A → result B) (l : list A) (ys : list B) :
  comprehension f l = Ok ys → Forall2 (λ x y, f x = Ok y) l ys.
Proof.
  revert ys. induction l as [|x l IH]; intros ys; simpl.
  - intros [= <-]. constructor.
  - destruct (f x) as [y|e] eqn:Hfx; simpl; [|done].
    destruct (comprehension f l) as [ys'|e] eqn:Hl; simpl; [|done].
    intros [= <-]. constructor; auto.
Qed.

(** ** The count matrix *)

Section matrix_facts.
Local Open Scope nat_scope.

Lemma py_max_ge (l : list nat) (m x : nat) :
  py_max l = Ok m → x ∈ l → x ≤ m.
Proof.
  assert (∀ (l : list nat) a, a ≤ foldl Nat.max a l ∧
            ∀ y, y ∈ l → y ≤ foldl Nat.max a l) as Hmax.
  { clear. induction l as [|b l IH]; intros a; simpl.
    - split; [done|]. intros y Hy. by apply elem_of_nil in Hy.
    - destruct (IH (Nat.max a b)) as [Ha Hall]. split; [lia|].
      intros y [->|Hy]%elem_of_cons; [lia|auto]. }
  destruct l as [|a l]; simpl; [done|]. intros [= <-].
  destruct (Hmax l a) as [Ha Hall].
  intros [->|Hx]%elem_of_cons; auto.
Qed.

(** Row sums and cells of a matrix filled from counted keys. *)
Lemma entries_weight (counts : list (string * nat)) (h : string → nat * nat)
    (Q : nat * nat → Prop) `{∀ p, Decision (Q p)} :
  sum_list (snd <$> filter (λ e : nat * nat * nat, Q e.1)
                      ((λ kv : string * nat, (h kv.1, kv.2)) <$> counts))
  = weight (λ k, Q (h k)) counts.
Proof.
  unfold weight. induction counts as [|[k v] counts IH]; [done|].
  rewrite fmap_cons, !filter_cons. unfold fmap in IH |- *. simpl.
  destruct (decide (Q (h k))); simpl; by rewrite IH.
Qed.

Lemma sum_list_indicator_zero (a v m : nat) :
  m ≤ a →
  sum_list ((λ r, if decide (a = r) then v else 0) <$> seq 0 m) = 0.
Proof.
  induction m as [|m IH]; intros Hm; [done|].
  rewrite seq_S, fmap_app, sum_list_with_app, IH by lia. simpl.
  case_decide; lia.
Qed.

Lemma sum_list_indicator (a v n : nat) :
  a < n →
  sum_list ((λ r, if decide (a = r) then v else 0) <$> seq 0 n) = v.
Proof.
  induction n as [|n IH]; intros Ha; [lia|].
  rewrite seq_S, fmap_app, sum_list_with_app. simpl.
  case_decide as Han.
  - subst n. rewrite sum_list_indicator_zero by done. lia.
  - rewrite IH by lia. lia.
Qed.

Lemma sum_list_fmap_plus {A : Type} (g h : A → nat) (l : list A) :
  sum_list ((λ x, g x + h x) <$> l) = sum_list (g <$> l) + sum_list (h <$> l).
Proof.
  induction l as [|x l IH]; [done|].
  rewrite !fmap_cons. cbn [sum_list_with id]. rewrite IH. lia.
Qed.

Lemma mat_row_sum_nil (sh : nat * nat) (a : nat) :
  mat_row_sum (Matrix [] sh) a = 0.
Proof. done. Qed.

Lemma mat_row_sum_cons (r c v : nat) (coo : list (nat * nat * nat))
    (sh : nat * nat) (a : nat) :
  mat_row_sum (Matrix ((r, c, v) :: coo) sh) a
  = (if decide (r = a) then v else 0) + mat_row_sum (Matrix coo sh) a.
Proof.
  unfold mat_row_sum. cbn [entries]. rewrite filter_cons. cbn [fst].
  case_decide; [|done]. by rewrite fmap_cons.
Qed.

Lemma row_sums_total (coo : list (nat * nat * nat)) (sh : nat * nat) :
  (∀ e, e ∈ coo → e.1.1 < sh.1) →
  sum_list (sum_axis1 (Matrix coo sh)) = sum_list (snd <$> coo).
Proof.
  unfold sum_axis1. cbn [shape].
  induction coo as [|[[r c] v] coo IH]; intros Hrows.
  - induction (seq 0 sh.1) as [|a l IHl]; [done|].
    rewrite fmap_cons. cbn [sum_list_with]. by rewrite IHl.
  - rewrite (list_fmap_ext _
      (λ a, (if decide (r = a) then v else 0) + mat_row_sum (Matrix coo sh) a))
      by (intros; apply mat_row_sum_cons).
    rewrite sum_list_fmap_plus, sum_list_indicator, IH.
    + done.
    + intros e He. apply Hrows. by right.
    + apply (Hrows (r, c, v)). left.
Qed.

(** [argmax] gives a position of the row, and nothing in the row is
    greater than what is found there. *)
Lemma argmax_from_spec (rest : list nat) (best_i best i : nat) :
  best_i < i →
  ∃ v, best ≤ v ∧ (∀ x, x ∈ rest → x ≤ v) ∧
       (argmax_from best_i best i rest = best_i ∧ v = best
        ∨ i ≤ argmax_from best_i best i rest ∧
          rest !! (argmax_from best_i best i rest - i) = Some v).
Proof.
  revert best_i best i. induction rest as [|x rest IH];
    intros best_i best i Hlt; simpl.
  - exists best. split; [done|]. split; [|by left].
    intros x Hx. by apply elem_of_nil in Hx.
  - destruct (Nat.ltb_spec best x) as [Hbx|Hbx].
    + destruct (IH i x (S i)) as (v & Hv & Hall & Hpos); [lia|].
      exists v. split; [lia|]. split.
      * intros y [->|Hy]%elem_of_cons; auto.
      * right. destruct Hpos as [[-> ->]|[Hle Hlook]].
        -- split; [done|]. by rewrite Nat.sub_diag.
        -- split; [lia|].
           replace (argmax_from i x (S i) rest - i)
             with (S (argmax_from i x (S i) rest - S i)) by lia.
           done.
    + destruct (IH best_i best (S i)) as (v & Hv & Hall & Hpos); [lia|].
      exists v. split; [done|]. split.
      * intros y [->|Hy]%elem_of_cons; [lia|auto].
      * destruct Hpos as [[-> ->]|[Hle Hlook]]; [by left|]. right.
        split; [lia|].
        replace (argmax_from best_i best (S i) rest - i)
          with (S (argmax_from best_i best (S i) rest - S i)) by lia.
        done.
Qed.

Lemma argmax_spec (l : list nat) :
  l ≠ [] →
  ∃ v, l !! argmax l = Some v ∧ ∀ x, x ∈ l → x ≤ v.
Proof.
  destruct l as [|a rest]; [done|]. intros _. simpl.
  destruct (argmax_from_spec rest 0 a 1) as (v & Hv & Hall & Hpos); [lia|].
  exists v. split.
  - destruct Hpos as [[-> ->]|[Hle Hlook]]; [done|].
    destruct (argmax_from 0 a 1 rest) as [|n]; [lia|].
    replace (S n - 1) with n in Hlook by lia. done.
  - intros x [->|Hx]%elem_of_cons; auto.
Qed.

Lemma argmax_axis1_row (mat : matrix) (r : nat) :
  r < (shape mat).1 → 0 < (shape mat).2 →
  ∃ a, argmax_axis1 mat !! r = Some a ∧ a < (shape mat).2 ∧
       ∀ c, c < (shape mat).2 → mat_get mat r c ≤ mat_get mat r a.
Proof.
  intros Hr Hc. unfold argmax_axis1.
  set (row := mat_get mat r <$> seq 0 (shape mat).2).
  destruct (argmax_spec row) as (v & Hlook & Hall).
  { unfold row. destruct (shape mat).2; [lia|done]. }
  exists (argmax row). rewrite list_lookup_fmap, lookup_seq_lt by done.
  split; [done|].
  assert (argmax row < (shape mat).2) as Hlt.
  { pose proof (lookup_lt_Some _ _ _ Hlook) as Hl. unfold row in Hl.
    by rewrite length_fmap, length_seq in Hl. }
  split; [done|]. intros c Hcl.
  assert (v = mat_get mat r (argmax row)) as ->.
  { unfold row in Hlook.
    rewrite list_lookup_fmap, lookup_seq_lt in Hlook by done.
    simpl in Hlook. injection Hlook as <-. done. }
  apply Hall. unfold row. apply list_elem_of_fmap. exists c.
  split; [done|]. apply elem_of_seq. lia.
Qed.
End matrix_facts.

(** ** The deduplicator *)

Lemma complete_sep_free_fields (x : fragment) :
  complete x → sep_free x →
  ∃ c s e b, x = Fragment (Some c) (Some s) (Some e) (Some b) ∧
             contains "|" c = false ∧ contains "|" b = false.
Proof.
  intros ((c & Hc & _) & (s & Hs & _) & (e & He & _) & (b & Hb & _)) [Hsc Hsb].
  exists c, s, e, b. destruct x as [xc xs xe xb]. simpl in *. subst.
  split; [done|]. split; [by apply Hsc|by apply Hsb].
Qed.

Lemma coord_key_inj c s e b c' s' e' b' :
  contains "|" c = false → contains "|" c' = false →
  coord_key (Fragment (Some c) (Some s) (Some e) b)
  = coord_key (Fragment (Some c') (Some s') (Some e') b') →
  c = c' ∧ s = s' ∧ e = e'.
Proof.
  intros Hc Hc' Heq. apply (f_equal (split "|")) in Heq.
  unfold coord_key in Heq. rewrite !split_coord_key in Heq by done.
  injection Heq as -> Hs He.
  apply (inj pretty) in Hs, He. done.
Qed.

Lemma length_filter_fmap {A B : Type} (f : A → B) (P : B → Prop)
    `{∀ y, Decision (P y)} (l : list A) :
  length (filter P (f <$> l)) = length (filter (λ x, P (f x)) l).
Proof.
  induction l as [|x l IH]; [done|].
  rewrite fmap_cons, !filter_cons. case_decide; simpl; by rewrite IH.
Qed.

Lemma length_filter_ext_in {A : Type} (P Q : A → Prop)
    `{∀ x, Decision (P x)} `{∀ x, Decision (Q x)} (l : list A) :
  (∀ x, x ∈ l → P x ↔ Q x) → length (filter P l) = length (filter Q l).
Proof.
  induction l as [|x l IH]; intros Hext; [done|].
  rewrite !filter_cons.
  assert (P x ↔ Q x) as Hx by (apply Hext; left).
  assert (length (filter P l) = length (filter Q l)) as Hl.
  { apply IH. intros y Hy. apply Hext. by right. }
  repeat case_decide; simpl; try tauto; by rewrite Hl.
Qed.

Lemma zip_fmap_same {A B C : Type} (g : A → B) (h : A → C) (l : list A) :
  zip (g <$> l) (h <$> l) = (λ x, (g x, h x)) <$> l.
Proof. induction l as [|x l IH]; [done|]. rewrite !fmap_cons. simpl. by f_equal. Qed.

Lemma row_count_last (parts : list pyval) (b : pyval) (n : Z) :
  row_count (parts ++ [b; PInt n]) = n.
Proof.
  unfold row_count. replace (parts ++ [b; PInt n]) with ((parts ++ [b]) ++ [PInt n]).
  - by rewrite last_snoc.
  - by rewrite <-app_assoc.
Qed.

Lemma length_filter_pos {A : Type} (P : A → Prop) `{∀ x, Decision (P x)}
    (l : list A) (x : A) :
  x ∈ l → P x → (0 < length (filter P l))%nat.
Proof.
  intros Hx HP.
  assert (x ∈ filter P l) as Hin by (by apply list_elem_of_filter).
  destruct (filter P l); [by apply elem_of_nil in Hin|simpl; lia].
Qed.

Lemma length_filter_pos_inv {A : Type} (P : A → Prop) `{∀ x, Decision (P x)}
    (l : list A) :
  (0 < length (filter P l))%nat → ∃ x, x ∈ l ∧ P x.
Proof.
  destruct (filter P l) as [|x l'] eqn:Hf; simpl; [lia|]. intros _.
  assert (x ∈ filter P l) as Hin by (rewrite Hf; left).
  apply list_elem_of_filter in Hin as [HP Hx]. eauto.
Qed.

Lemma total_count_rows (triples : list (string * pyval * nat)) :
  total_count
    ((λ fbs : string * pyval * nat,
        (PStr <$> split "|" fbs.1.1) ++ [fbs.1.2; PInt (Z.of_nat fbs.2)])
       <$> triples)
  = Z.of_nat (sum_list (snd <$> triples)).
Proof.
  unfold total_count. induction triples as [|[[f b] n] triples IH]; [done|].
  rewrite !fmap_cons. cbn [foldr sum_list_with id snd fst].
  rewrite IH, row_count_last. lia.
Qed.

Lemma coo_entries_data (frag_id_lookup : list (string * nat))
    (bc_id_lookup : list (pyval * nat)) (counts : list (string * nat))
    (coo : list (nat * nat * nat)) :
  comprehension (coo_entry frag_id_lookup bc_id_lookup) counts = Ok coo →
  sum_list (snd <$> coo) = sum_list (snd <$> counts) ∧
  ∀ e, e ∈ coo → e.1.1 ∈ frag_id_lookup.*2.
Proof.
  intros Hcoo%comprehension_inv.
  induction Hcoo as [|[k v] [[r c] v'] counts coo Hentry _ [IHsum IHrow]].
  - split; [done|]. intros e He. by apply elem_of_nil in He.
  - unfold coo_entry, getitem in Hentry. cbn [fst snd] in Hentry.
    destruct (split "|" k !! 3%nat) as [bcstr|]; [|done]. simpl in Hentry.
    destruct (dict_get frag_id_lookup (join "|" (take 3 (split "|" k))))
      as [r'|] eqn:Hr; [|done]. simpl in Hentry.
    destruct (dict_get bc_id_lookup (PStr bcstr)) as [c'|]; [|done].
    simpl in Hentry. injection Hentry as -> -> ->.
    split.
    + rewrite !fmap_cons. cbn [sum_list_with id snd]. by rewrite IHsum.
    + intros e [->|He]%elem_of_cons; [|auto]. cbn [fst].
      apply dict_get_Some_elem in Hr. apply list_elem_of_fmap.
      by eexists (_, _).
Qed.

Lemma filter_True_id {A : Type} (l : list A) : filter (λ _ : A, True) l = l.
Proof.
  induction l as [|x l IH]; [done|]. rewrite filter_cons_True by done.
  by rewrite IH.
Qed.

Section conservation.
Variable pyset : ∀ A : Type, EqDecision A → list A → list A.

(** X2.  Whenever the deduplicator returns, the counts of its rows add up to the
    number of fragments it was given: every fragment is counted in exactly
    one row.  This holds for every input and every iteration order of the
    sets inside [id_lookup]. *)
Lemma collapseFragments_conserves (fragments : gmap string fragment)
    (rows : list (list pyval)) :
  collapseFragments pyset fragments = Ok rows →
  total_count rows = Z.of_nat (size fragments).
Proof.
  unfold collapseFragments.
  set (fraglist := values <$> (map_to_list fragments).*2).
  set (keys := (λ x, join "|" (str <$> x)) <$> fraglist).
  set (frag_id_lookup :=
         id_lookup pyset ((λ x, join "|" (str <$> take 3 x)) <$> fraglist)).
  set (bc_id_lookup :=
         id_lookup pyset ((λ x, default PNone (x !! 3%nat)) <$> fraglist)).
  destruct (comprehension (coo_entry frag_id_lookup bc_id_lookup) (Counter keys))
    as [coo|] eqn:Hcoo; [|done]. cbn [mbind result_bind].
  destruct (py_max frag_id_lookup.*2) as [max_frag|] eqn:Hmf; [|done].
  cbn [mbind result_bind].
  destruct (py_max bc_id_lookup.*2) as [max_bc|] eqn:Hmb; [|done].
  cbn [mbind result_bind shape fst snd].
  destruct (comprehension _ (seq 0 (S max_frag))) as [cf|] eqn:Hcf; [|done].
  cbn [mbind result_bind].
  destruct (comprehension _ (argmax_axis1 _)) as [cb|] eqn:Hcb; [|done].
  cbn [mbind result_bind]. intros [= <-].
  apply comprehension_inv, Forall2_length in Hcf, Hcb.
  rewrite length_seq in Hcf.
  unfold argmax_axis1 in Hcb. rewrite length_fmap, length_seq in Hcb.
  cbn [shape fst] in Hcb.
  rewrite total_count_rows, snd_zip.
  2:{ unfold sum_axis1. rewrite length_fmap, length_seq, length_zip. cbn. lia. }
  destruct (coo_entries_data _ _ _ _ Hcoo) as [Hsum Hrows].
  rewrite row_sums_total.
  2:{ intros e He. cbn [fst]. apply Hrows in He.
      pose proof (py_max_ge _ _ _ Hmf He). lia. }
  rewrite Hsum. f_equal.
  assert (sum_list (Counter keys).*2 = weight (λ _, True) (Counter keys)) as ->.
  { unfold weight. by rewrite filter_True_id. }
  rewrite weight_Counter, filter_True_id. unfold keys, fraglist.
  by rewrite !length_fmap, length_map_to_list.
Qed.
End conservation.

Section dedup.
Variable pyset : ∀ A : Type, EqDecision A → list A → list A.
Hypothesis pyset_NoDup :
  ∀ (A : Type) (H : EqDecision A) (l : list A), NoDup (pyset A H l).
Hypothesis pyset_elem :
  ∀ (A : Type) (H : EqDecision A) (l : list A) (x : A),
    x ∈ pyset A H l ↔ x ∈ l.

Local Open Scope nat_scope.

Implicit Types (xs : list fragment) (x : fragment).

Local Abbreviation Lf xs := (id_lookup pyset (coord_key <$> xs)).
Local Abbreviation Lb xs := (id_lookup pyset (barcode_key <$> xs)).

Lemma key_row_full xs x :
  x ∈ xs → complete x → sep_free x →
  ∃ r, dict_get (Lf xs) (coord_key x) = Some r ∧ r < length (Lf xs) ∧
       key_row (Lf xs) (full_key x) = r.
Proof.
  intros Hx Hc Hs.
  destruct (complete_sep_free_fields x Hc Hs) as (c & s & e & b & -> & Hsc & Hsb).
  destruct (id_lookup_get pyset pyset_NoDup pyset_elem (coord_key <$> xs)
              (coord_key (Fragment (Some c) (Some s) (Some e) (Some b))))
    as (r & Hr & Hlt).
  { apply list_elem_of_fmap. eauto. }
  exists r. split; [done|]. split; [done|].
  unfold key_row, full_key. rewrite split_full_key by done.
  change (join "|" (take 3 [c; pretty s; pretty e; b]))
    with (coord_key (Fragment (Some c) (Some s) (Some e) (Some b))).
  by rewrite Hr.
Qed.

Lemma key_col_full xs x :
  x ∈ xs → complete x → sep_free x →
  ∃ a, dict_get (Lb xs) (barcode_key x) = Some a ∧ a < length (Lb xs) ∧
       key_col (Lb xs) (full_key x) = a.
Proof.
  intros Hx Hc Hs.
  destruct (complete_sep_free_fields x Hc Hs) as (c & s & e & b & -> & Hsc & Hsb).
  destruct (id_lookup_get pyset pyset_NoDup pyset_elem (barcode_key <$> xs)
              (barcode_key (Fragment (Some c) (Some s) (Some e) (Some b))))
    as (a & Ha & Hlt).
  { apply list_elem_of_fmap. eauto. }
  exists a. split; [done|]. split; [done|].
  unfold key_col, full_key. rewrite split_full_key by done.
  change (PStr (default "" ([c; pretty s; pretty e; b] !! 3)))
    with (barcode_key (Fragment (Some c) (Some s) (Some e) (Some b))).
  by rewrite Ha.
Qed.

Lemma coo_entries_full xs :
  (∀ x, x ∈ xs → complete x ∧ sep_free x) →
  comprehension (coo_entry (Lf xs) (Lb xs)) (Counter (full_key <$> xs))
  = Ok ((λ kv : string * nat,
           ((key_row (Lf xs) kv.1, key_col (Lb xs) kv.1), kv.2))
          <$> Counter (full_key <$> xs)).
Proof.
  intros Hwf. apply comprehension_Ok. intros [k v] Hkv.
  apply Counter_keys, list_elem_of_fmap in Hkv as (x & -> & Hx).
  destruct (Hwf x Hx) as [Hc Hs].
  destruct (key_row_full xs x Hx Hc Hs) as (r & Hr & _ & Hkr).
  destruct (key_col_full xs x Hx Hc Hs) as (a & Ha & _ & Hka).
  cbn [fst snd]. rewrite Hkr, Hka.
  destruct (complete_sep_free_fields x Hc Hs) as (c & s & e & b & -> & Hsc & Hsb).
  unfold coo_entry, getitem. cbn [fst snd]. unfold full_key.
  rewrite split_full_key by done.
  change (join "|" (take 3 [c; pretty s; pretty e; b]))
    with (coord_key (Fragment (Some c) (Some s) (Some e) (Some b))).
  change ([c; pretty s; pretty e; b] !! 3) with (Some b).
  change (PStr b)
    with (barcode_key (Fragment (Some c) (Some s) (Some e) (Some b))).
  cbn [mbind result_bind]. rewrite Hr. cbn [mbind result_bind].
  change (barcode_key (Fragment (Some c) (Some s) (Some e) (Some b)))
    with (PStr b) in Ha.
  rewrite Ha. done.
Qed.

(** What a row and a cell of the matrix count. *)
Lemma row_weight xs x0 c s e r :
  (∀ x, x ∈ xs → complete x ∧ sep_free x) →
  x0 ∈ xs → at_coord c s e x0 →
  dict_get (Lf xs) (coord_key x0) = Some r →
  ∀ x, x ∈ xs → key_row (Lf xs) (full_key x) = r ↔ at_coord c s e x.
Proof.
  intros Hwf Hx0 Hat Hr x Hx.
  destruct (Hwf x Hx) as [Hc Hs]. destruct (Hwf x0 Hx0) as [Hc0 Hs0].
  destruct (key_row_full xs x Hx Hc Hs) as (r' & Hr' & _ & ->).
  destruct (complete_sep_free_fields x Hc Hs)
    as (c1 & s1 & e1 & b1 & -> & Hsc1 & Hsb1).
  destruct (complete_sep_free_fields x0 Hc0 Hs0)
    as (c0 & s0 & e0 & b0 & -> & Hsc0 & Hsb0).
  destruct Hat as (Hatc & Hats & Hate). simpl in Hatc, Hats, Hate.
  injection Hatc as <-. injection Hats as <-. injection Hate as <-.
  unfold at_coord. simpl. split.
  - intros ->.
    pose proof (id_lookup_inj pyset pyset_NoDup pyset_elem _ _ _ _ Hr Hr') as Hk.
    apply coord_key_inj in Hk as (-> & -> & ->); done.
  - intros ([= ->] & [= ->] & [= ->]).
    change (coord_key (Fragment (Some c0) (Some s0) (Some e0) (Some b1)))
      with (coord_key (Fragment (Some c0) (Some s0) (Some e0) (Some b0))) in Hr'.
    congruence.
Qed.

Lemma col_weight xs x1 b a :
  (∀ x, x ∈ xs → complete x ∧ sep_free x) →
  x1 ∈ xs → cell x1 = Some b →
  dict_get (Lb xs) (barcode_key x1) = Some a →
  ∀ x, x ∈ xs → key_col (Lb xs) (full_key x) = a ↔ cell x = Some b.
Proof.
  intros Hwf Hx1 Hcell Ha x Hx.
  destruct (Hwf x Hx) as [Hc Hs]. destruct (Hwf x1 Hx1) as [Hc1 Hs1].
  destruct (key_col_full xs x Hx Hc Hs) as (a' & Ha' & _ & ->).
  destruct (complete_sep_free_fields x Hc Hs)
    as (c2 & s2 & e2 & b2 & -> & _ & _).
  destruct (complete_sep_free_fields x1 Hc1 Hs1)
    as (c1 & s1 & e1 & b1 & -> & _ & _).
  simpl in Hcell. injection Hcell as ->. simpl. split.
  - intros ->.
    pose proof (id_lookup_inj pyset pyset_NoDup pyset_elem _ _ _ _ Ha Ha') as Hk.
    unfold barcode_key in Hk. simpl in Hk. congruence.
  - intros [= ->]. unfold barcode_key in Ha, Ha'. simpl in Ha, Ha'. congruence.
Qed.

Local Abbreviation coo_of xs :=
  ((λ kv : string * nat,
      ((key_row (Lf xs) kv.1, key_col (Lb xs) kv.1), kv.2))
     <$> Counter (full_key <$> xs)).

Lemma matrix_row_sum xs sh x0 c s e r :
  (∀ x, x ∈ xs → complete x ∧ sep_free x) →
  x0 ∈ xs → at_coord c s e x0 →
  dict_get (Lf xs) (coord_key x0) = Some r →
  mat_row_sum (Matrix (coo_of xs) sh) r = count_coord xs c s e.
Proof.
  intros Hwf Hx0 Hat Hr.
  transitivity (weight (λ k, (key_row (Lf xs) k, key_col (Lb xs) k).1 = r)
                  (Counter (full_key <$> xs))).
  { exact (entries_weight (Counter (full_key <$> xs))
             (λ k, (key_row (Lf xs) k, key_col (Lb xs) k)) (λ p, p.1 = r)). }
  rewrite weight_Counter, length_filter_fmap. unfold count_coord.
  apply length_filter_ext_in. intros x Hx. cbn [fst].
  by apply (row_weight xs x0).
Qed.

Lemma matrix_cell xs sh x0 x1 c s e b r a :
  (∀ x, x ∈ xs → complete x ∧ sep_free x) →
  x0 ∈ xs → at_coord c s e x0 →
  dict_get (Lf xs) (coord_key x0) = Some r →
  x1 ∈ xs → cell x1 = Some b →
  dict_get (Lb xs) (barcode_key x1) = Some a →
  mat_get (Matrix (coo_of xs) sh) r a = count_coord_cell xs c s e b.
Proof.
  intros Hwf Hx0 Hat Hr Hx1 Hcell Ha.
  transitivity (weight (λ k, (key_row (Lf xs) k, key_col (Lb xs) k).1 = r ∧
                             (key_row (Lf xs) k, key_col (Lb xs) k).2 = a)
                  (Counter (full_key <$> xs))).
  { exact (entries_weight (Counter (full_key <$> xs))
             (λ k, (key_row (Lf xs) k, key_col (Lb xs) k))
             (λ p, p.1 = r ∧ p.2 = a)). }
  rewrite weight_Counter, length_filter_fmap. unfold count_coord_cell.
  apply length_filter_ext_in. intros x Hx. cbn [fst snd].
  rewrite (row_weight xs x0 c s e r Hwf Hx0 Hat Hr x Hx).
  by rewrite (col_weight xs x1 b a Hwf Hx1 Hcell Ha x Hx).
Qed.

Lemma collapseFragments_keys fragments :
  collapseFragments pyset fragments =
  let xs := fragment_list fragments in
  coo ← comprehension (coo_entry (Lf xs) (Lb xs)) (Counter (full_key <$> xs));
  max_frag ← py_max (Lf xs).*2;
  max_bc ← py_max (Lb xs).*2;
  let mat := Matrix coo (S max_frag, S max_bc) in
  collapsed_frags ←
    comprehension (getitem (dict_zip (Lf xs).*2 (Lf xs).*1))
      (seq 0 (shape mat).1);
  collapsed_barcodes ←
    comprehension (getitem (dict_zip (Lb xs).*2 (Lb xs).*1)) (argmax_axis1 mat);
  Ok ((λ fbs : string * pyval * nat,
         (PStr <$> split "|" fbs.1.1) ++ [fbs.1.2; PInt (Z.of_nat fbs.2)])
        <$> zip (zip collapsed_frags collapsed_barcodes) (sum_axis1 mat)).
Proof.
  unfold collapseFragments, fragment_list. cbv zeta.
  by rewrite <-!list_fmap_compose.
Qed.

(** The row that the deduplicator writes for the row index [r]. *)
Lemma collapseFragments_rows fragments :
  fragments ≠ ∅ →
  (∀ key x, fragments !! key = Some x → complete x ∧ sep_free x) →
  let xs := fragment_list fragments in
  ∃ (inv_frag : nat → string) (inv_bc : nat → pyval) (rowmax : nat → nat)
    (mat : matrix),
    mat = Matrix (coo_of xs) (length (Lf xs), length (Lb xs)) ∧
    0 < length (Lf xs) ∧ 0 < length (Lb xs) ∧
    (∀ r, r < length (Lf xs) →
       dict_get (Lf xs) (inv_frag r) = Some r ∧
       argmax_axis1 mat !! r = Some (rowmax r) ∧
       dict_get (Lb xs) (inv_bc (rowmax r)) = Some (rowmax r)) ∧
    collapseFragments pyset fragments
    = Ok ((λ r, (PStr <$> split "|" (inv_frag r)) ++
                [inv_bc (rowmax r); PInt (Z.of_nat (mat_row_sum mat r))])
            <$> seq 0 (length (Lf xs))).
Proof.
  intros Hne Hwf0 xs.
  assert (∀ x, x ∈ xs → complete x ∧ sep_free x) as Hwf.
  { intros x [[k x'] [-> Hkx]]%list_elem_of_fmap.
    apply elem_of_map_to_list in Hkx. by eapply Hwf0. }
  assert (xs ≠ []) as Hxs.
  { unfold xs, fragment_list. intros Hnil%fmap_nil_inv.
    by apply map_to_list_empty_iff in Hnil. }
  destruct (id_lookup_max pyset pyset_NoDup pyset_elem (coord_key <$> xs))
    as (mf & Hmf & Hnr).
  { intros Hnil%fmap_nil_inv. done. }
  destruct (id_lookup_max pyset pyset_NoDup pyset_elem (barcode_key <$> xs))
    as (mb & Hmb & Hnc).
  { intros Hnil%fmap_nil_inv. done. }
  set (mat := Matrix (coo_of xs) (length (Lf xs), length (Lb xs))).
  set (inv_frag := λ r, default "" (dict_get (dict_zip (Lf xs).*2 (Lf xs).*1) r)).
  set (inv_bc := λ a, default PNone (dict_get (dict_zip (Lb xs).*2 (Lb xs).*1) a)).
  set (rowmax := λ r, argmax (mat_get mat r <$> seq 0 (shape mat).2)).
  exists inv_frag, inv_bc, rowmax, mat.
  split; [done|]. split; [lia|]. split; [lia|].
  assert (∀ r, r < length (Lf xs) →
            getitem (dict_zip (Lf xs).*2 (Lf xs).*1) r = Ok (inv_frag r) ∧
            dict_get (Lf xs) (inv_frag r) = Some r) as Hinvf.
  { intros r Hr.
    destruct (id_lookup_inverse_get pyset pyset_NoDup pyset_elem
                (coord_key <$> xs) r Hr) as [k Hk].
    unfold getitem, inv_frag. rewrite Hk. split; [done|].
    by apply (id_lookup_inverse pyset pyset_NoDup pyset_elem). }
  assert (∀ a, a < length (Lb xs) →
            getitem (dict_zip (Lb xs).*2 (Lb xs).*1) a = Ok (inv_bc a) ∧
            dict_get (Lb xs) (inv_bc a) = Some a) as Hinvb.
  { intros a Ha.
    destruct (id_lookup_inverse_get pyset pyset_NoDup pyset_elem
                (barcode_key <$> xs) a Ha) as [k Hk].
    unfold getitem, inv_bc. rewrite Hk. split; [done|].
    by apply (id_lookup_inverse pyset pyset_NoDup pyset_elem). }
  assert (∀ r, r < length (Lf xs) →
            argmax_axis1 mat !! r = Some (rowmax r) ∧ rowmax r < length (Lb xs))
    as Hmax.
  { intros r Hr.
    destruct (argmax_axis1_row mat r) as (a & Ha & Hlt & _); [done|simpl; lia|].
    assert (a = rowmax r) as ->.
    { unfold argmax_axis1 in Ha.
      rewrite list_lookup_fmap, lookup_seq_lt in Ha by done.
      simpl in Ha. by injection Ha as <-. }
    done. }
  split.
  { intros r Hr. destruct (Hinvf r Hr) as [_ ?].
    destruct (Hmax r Hr) as [? Hlt]. destruct (Hinvb _ Hlt) as [_ ?]. done. }
  rewrite collapseFragments_keys. cbv zeta. fold xs.
  rewrite (coo_entries_full xs Hwf). cbn [mbind result_bind].
  rewrite Hmf. cbn [mbind result_bind]. rewrite Hmb. cbn [mbind result_bind].
  rewrite Hnr, Hnc. fold mat.
  change (shape mat).1 with (length (Lf xs)).
  rewrite (comprehension_Ok _ inv_frag).
  2:{ intros r Hr%elem_of_seq. apply Hinvf. lia. }
  cbn [mbind result_bind].
  assert (argmax_axis1 mat = rowmax <$> seq 0 (length (Lf xs))) as Hrowmax.
  { unfold argmax_axis1. done. }
  rewrite Hrowmax.
  rewrite (comprehension_Ok _ inv_bc).
  2:{ intros a [r [-> Hr%elem_of_seq]]%list_elem_of_fmap.
      apply Hinvb. apply Hmax. lia. }
  cbn [mbind result_bind]. f_equal.
  unfold sum_axis1. change (shape mat).1 with (length (Lf xs)).
  rewrite <-list_fmap_compose, !zip_fmap_same, <-list_fmap_compose.
  done.
Qed.

(** X1.  The deduplicator on completed fragments whose chromosome names and
    barcodes are free of ["|"]: it returns one row per distinct coordinate;
    the row holds the coordinate (start and end as the decimal strings that
    [split] leaves), a barcode that no other barcode outnumbers at that
    coordinate, and the number of all fragments at the coordinate, whatever
    their barcode. *)
Theorem collapseFragments_dedup (fragments : gmap string fragment) :
  fragments ≠ ∅ →
  (∀ key x, fragments !! key = Some x → complete x ∧ sep_free x) →
  let xs := fragment_list fragments in
  ∃ rows,
    collapseFragments pyset fragments = Ok rows ∧
    NoDup (take 3 <$> rows) ∧
    (∀ x c s e, x ∈ xs → at_coord c s e x →
       [PStr c; PStr (pretty s); PStr (pretty e)] ∈ take 3 <$> rows) ∧
    ∀ row, row ∈ rows →
      ∃ c s e b,
        row = [PStr c; PStr (pretty s); PStr (pretty e); PStr b;
               PInt (Z.of_nat (count_coord xs c s e))] ∧
        0 < count_coord_cell xs c s e b ∧
        ∀ b', count_coord_cell xs c s e b' ≤ count_coord_cell xs c s e b.
Proof.
  intros Hne Hwf0 xs.
  assert (∀ x, x ∈ xs → complete x ∧ sep_free x) as Hwf.
  { intros x [[k x'] [-> Hkx]]%list_elem_of_fmap.
    apply elem_of_map_to_list in Hkx. by eapply Hwf0. }
  destruct (collapseFragments_rows fragments Hne Hwf0)
    as (inv_frag & inv_bc & rowmax & mat & Hmat & Hnr & Hnc & Hrow & Hrows).
  fold xs in Hmat, Hnr, Hnc, Hrow, Hrows.
  set (rowF := λ r, (PStr <$> split "|" (inv_frag r)) ++
                    [inv_bc (rowmax r); PInt (Z.of_nat (mat_row_sum mat r))])
    in Hrows.
  (* the coordinate behind a row index *)
  assert (∀ r, r < length (Lf xs) →
            ∃ c s e b0, Fragment (Some c) (Some s) (Some e) (Some b0) ∈ xs ∧
              inv_frag r
              = coord_key (Fragment (Some c) (Some s) (Some e) (Some b0)) ∧
              split "|" (inv_frag r) = [c; pretty s; pretty e]) as Hcoord.
  { intros r Hr. destruct (Hrow r Hr) as (Hget & _ & _).
    apply (id_lookup_key_elem pyset pyset_NoDup pyset_elem) in Hget.
    apply list_elem_of_fmap in Hget as (x0 & Heq & Hx0).
    destruct (Hwf x0 Hx0) as [Hc0 Hs0].
    destruct (complete_sep_free_fields x0 Hc0 Hs0)
      as (c & s & e & b0 & -> & Hsc & Hsb).
    exists c, s, e, b0. split; [done|]. split; [done|].
    rewrite Heq. unfold coord_key. by rewrite split_coord_key. }
  exists (rowF <$> seq 0 (length (Lf xs))). split; [exact Hrows|].
  split; [|split].
  - rewrite <-list_fmap_compose. apply NoDup_fmap_2_strong; [|apply NoDup_seq].
    intros r r' Hr%elem_of_seq Hr'%elem_of_seq Heq.
    destruct (Hcoord r) as (c & s & e & b0 & _ & _ & Hsp); [lia|].
    destruct (Hcoord r') as (c' & s' & e' & b0' & _ & _ & Hsp'); [lia|].
    unfold compose, rowF in Heq. rewrite Hsp, Hsp' in Heq. simpl in Heq.
    assert (inv_frag r = inv_frag r') as Hinv.
    { rewrite <-(join_split (inv_frag r)), <-(join_split (inv_frag r')).
      rewrite Hsp, Hsp'. congruence. }
    destruct (Hrow r) as (Hg & _); [lia|].
    destruct (Hrow r') as (Hg' & _); [lia|]. congruence.
  - intros x c s e Hx Hat. destruct (Hwf x Hx) as [Hc Hs].
    destruct (key_row_full xs x Hx Hc Hs) as (r & Hr & Hlt & _).
    destruct (Hrow r Hlt) as (Hg & _).
    pose proof (id_lookup_inj pyset pyset_NoDup pyset_elem _ _ _ _ Hg Hr) as Hinv.
    rewrite <-list_fmap_compose. apply list_elem_of_fmap. exists r.
    split; [|apply elem_of_seq; lia].
    destruct (complete_sep_free_fields x Hc Hs)
      as (c1 & s1 & e1 & b1 & -> & Hsc & Hsb).
    destruct Hat as ([= ->] & [= ->] & [= ->]).
    unfold compose, rowF. rewrite Hinv. unfold coord_key.
    by rewrite split_coord_key.
  - intros row [r [-> Hr%elem_of_seq]]%list_elem_of_fmap.
    assert (r < length (Lf xs)) as Hlt by lia.
    destruct (Hcoord r Hlt) as (c & s & e & b0 & Hx0 & Hinv & Hsp).
    destruct (Hrow r Hlt) as (Hg & Hmax & Hgb). rewrite Hinv in Hg.
    assert (at_coord c s e (Fragment (Some c) (Some s) (Some e) (Some b0)))
      as Hat by done.
    (* the barcode behind the winning column *)
    pose proof Hgb as Hbk.
    apply (id_lookup_key_elem pyset pyset_NoDup pyset_elem) in Hbk.
    apply list_elem_of_fmap in Hbk as (x1 & Hbeq & Hx1).
    destruct (Hwf x1 Hx1) as [Hc1 Hs1].
    destruct (complete_sep_free_fields x1 Hc1 Hs1)
      as (c1 & s1 & e1 & b & -> & _ & _).
    rewrite Hbeq in Hgb.
    assert (∀ b', 0 < count_coord_cell xs c s e b' →
              count_coord_cell xs c s e b' ≤ count_coord_cell xs c s e b)
      as Hle.
    { intros b' Hpos.
      apply length_filter_pos_inv in Hpos as (x2 & Hx2 & Hat2 & Hcell2).
      destruct (Hwf x2 Hx2) as [Hc2 Hs2].
      destruct (key_col_full xs x2 Hx2 Hc2 Hs2) as (a2 & Ha2 & Hlt2 & _).
      destruct (argmax_axis1_row mat r) as (a & Ha & _ & Hall).
      { rewrite Hmat. simpl. lia. }
      { rewrite Hmat. simpl. lia. }
      rewrite Hmax in Ha. injection Ha as <-.
      specialize (Hall a2). rewrite Hmat in Hall. simpl in Hall.
      specialize (Hall Hlt2).
      rewrite (matrix_cell xs _ _ x2 c s e b' r a2 Hwf Hx0 Hat Hg Hx2 Hcell2 Ha2)
        in Hall.
      by rewrite (matrix_cell xs _ _ _ c s e b r (rowmax r) Hwf Hx0 Hat Hg
                    Hx1 eq_refl Hgb) in Hall. }
    exists c, s, e, b. split; [|split].
    + unfold rowF. rewrite Hsp, Hbeq. simpl. rewrite Hmat.
      by rewrite (matrix_row_sum xs _ _ c s e r Hwf Hx0 Hat Hg).
    + eapply Nat.lt_le_trans; [|apply (Hle b0)];
        by apply (length_filter_pos _ xs _ Hx0).
    + intros b'. destruct (count_coord_cell xs c s e b') as [|n] eqn:Hn; [lia|].
      rewrite <-Hn. apply Hle. lia.
Qed.
End dedup.

(** ** The deduplicator at its edges *)

Lemma listed_set_NoDup (A : Type) (H : EqDecision A) (l : list A) :
  NoDup (listed_set A H l).
Proof. apply NoDup_remove_dups. Qed.

Lemma listed_set_elem (A : Type) (H : EqDecision A) (l : list A) (x : A) :
  x ∈ listed_set A H l ↔ x ∈ l.
Proof. apply elem_of_remove_dups. Qed.

Section edges.
Variable pyset : ∀ A : Type, EqDecision A → list A → list A.
Hypothesis pyset_NoDup :
  ∀ (A : Type) (H : EqDecision A) (l : list A), NoDup (pyset A H l).
Hypothesis pyset_elem :
  ∀ (A : Type) (H : EqDecision A) (l : list A) (x : A),
    x ∈ pyset A H l ↔ x ∈ l.

Lemma pyset_nil (A : Type) (H : EqDecision A) : pyset A H [] = [].
Proof.
  destruct (pyset A H []) as [|x l] eqn:Hp; [done|].
  assert (x ∈ pyset A H []) as Hx by (rewrite Hp; left).
  apply pyset_elem in Hx. by apply elem_of_nil in Hx.
Qed.

Lemma pyset_singleton (A : Type) (H : EqDecision A) (x : A) :
  pyset A H [x] = [x].
Proof.
  pose proof (pyset_NoDup A H [x]) as Hnd.
  pose proof (pyset_elem A H [x]) as Hel.
  destruct (pyset A H [x]) as [|y l]; [|].
  - specialize (Hel x). destruct Hel as [_ Hel].
    assert (x ∈ ([] : list A)) as Hnil by (apply Hel; left).
    by apply elem_of_nil in Hnil.
  - assert (y = x) as ->.
    { apply list_elem_of_singleton, Hel. left. }
    destruct l as [|z l]; [done|].
    assert (z = x) as ->.
    { apply list_elem_of_singleton, Hel. right. left. }
    apply NoDup_cons in Hnd as [Hnd _]. destruct Hnd. left.
Qed.

(** C5, as the code has it.  On an empty collection the deduplicator
    raises: both lookups are empty, and [shape] takes [max] of an empty
    sequence. *)
Theorem collapseFragments_empty_raises :
  collapseFragments pyset ∅ = Raise ValueError.
Proof.
  unfold collapseFragments. rewrite map_to_list_empty. cbn [fmap list_fmap].
  unfold id_lookup. cbn [id_idx]. rewrite !pyset_nil. reflexivity.
Qed.

Lemma collapseFragments_piped_KeyError :
  collapseFragments pyset piped_fragments = Raise KeyError.
Proof.
  unfold collapseFragments, piped_fragments. rewrite map_to_list_singleton.
  cbn [fmap list_fmap snd]. unfold id_lookup. cbn [id_idx dict_get].
  rewrite !pyset_singleton. vm_compute. reflexivity.
Qed.

(** C1 at a reference name that holds ["|"].  The collection is not empty
    and its one fragment is complete, yet the deduplicator returns no row
    for it: splitting the composite key cuts the name, and the lookup of the
    cut coordinate raises [KeyError]. *)
Theorem collapseFragments_piped_chrom :
  piped_fragments ≠ ∅ ∧
  (∀ key x, piped_fragments !! key = Some x → complete x) ∧
  collapseFragments pyset piped_fragments = Raise KeyError.
Proof.
  split; [apply insert_non_empty|]. split; [|apply collapseFragments_piped_KeyError].
  unfold piped_fragments. intros key x [<- <-]%lookup_singleton_Some.
  unfold complete. simpl. repeat split; eauto.
Qed.

(** C3 at the same collection.  One fragment goes in, and there are no rows
    whose counts could add up to one, since the call raises. *)
Theorem collapseFragments_piped_count :
  size piped_fragments = 1%nat ∧
  ¬ ∃ rows, collapseFragments pyset piped_fragments = Ok rows ∧
            total_count rows = 1.
Proof.
  split; [apply map_size_singleton|].
  intros (rows & Hrows & _). by rewrite collapseFragments_piped_KeyError in Hrows.
Qed.
End edges.

Lemma collapseFragments_empty_raises_witness :
  collapseFragments listed_set ∅ = Raise ValueError.
Proof.
  apply (collapseFragments_empty_raises listed_set); apply listed_set_elem.
Defined.

Lemma collapseFragments_piped_chrom_witness :
  collapseFragments listed_set piped_fragments = Raise KeyError.
Proof.
  apply (collapseFragments_piped_chrom listed_set);
    [apply listed_set_NoDup|apply listed_set_elem].
Defined.

Lemma collapseFragments_piped_count_witness :
  ¬ ∃ rows, collapseFragments listed_set piped_fragments = Ok rows ∧
            total_count rows = 1.
Proof.
  apply (collapseFragments_piped_count listed_set);
    [apply listed_set_NoDup|apply listed_set_elem].
Defined.
(** ** The per-partition routine and the deduplicator, further properties *)

Lemma collapseFragments_conserves_witness :
  total_count [[PStr "chr1"; PStr "106"; PStr "245"; PStr "AAAA"; PInt 3]]
  = Z.of_nat (size scenario_fragments).
Proof.
  apply (collapseFragments_conserves listed_set scenario_fragments).
  vm_compute. reflexivity.
Defined.

Lemma scenario_fragments_wf key x :
  scenario_fragments !! key = Some x → complete x ∧ sep_free x.
Proof.
  unfold scenario_fragments. intros Hx.
  repeat (apply lookup_insert_Some in Hx as [[_ <-]|[_ Hx]];
          [split;
           [unfold complete; simpl; repeat split; eauto
           |split; intros ? [= <-]; reflexivity]|]).
  by rewrite lookup_empty in Hx.
Qed.

Lemma collapseFragments_dedup_witness :
  let xs := fragment_list scenario_fragments in
  ∃ rows,
    collapseFragments listed_set scenario_fragments = Ok rows ∧
    NoDup (take 3 <$> rows) ∧
    (∀ x c s e, x ∈ xs → at_coord c s e x →
       [PStr c; PStr (pretty s); PStr (pretty e)] ∈ take 3 <$> rows) ∧
    ∀ row, row ∈ rows →
      ∃ c s e b,
        row = [PStr c; PStr (pretty s); PStr (pretty e); PStr b;
               PInt (Z.of_nat (count_coord xs c s e))] ∧
        (0 < count_coord_cell xs c s e b)%nat ∧
        ∀ b', (count_coord_cell xs c s e b' ≤ count_coord_cell xs c s e b)%nat.
Proof.
  apply (collapseFragments_dedup listed_set listed_set_NoDup listed_set_elem
           scenario_fragments).
  - apply insert_non_empty.
  - apply scenario_fragments_wf.
Defined.

Section run.
Variable pyset : ∀ A : Type, EqDecision A → list A → list A.
Hypothesis pyset_elem :
  ∀ (A : Type) (H : EqDecision A) (l : list A) (x : A),
    x ∈ pyset A H l ↔ x ∈ l.
Variable AlignmentFile : string → result alignment_file.
Variable re_compile : string → regex.

Lemma collapseFragments_nil : collapseFragments pyset ∅ = Raise ValueError.
Proof.
  unfold collapseFragments. rewrite map_to_list_empty. cbn [fmap list_fmap].
  unfold id_lookup. cbn [id_idx]. rewrite !(pyset_nil pyset pyset_elem).
  reflexivity.
Qed.

(** X5.  A partition none of whose read pairs is completed makes the
    per-partition routine raise: the filter leaves an empty mapping and the
    deduplicator takes [max] of no values.  This is the case of an interval
    without reads, and of one with orphan reads only. *)
Theorem getFragments_no_complete_pair (interval : string * Z) (bam : string)
    (min_mapq : Z) (cellbarcode : string) (cells : option (list string))
    (inputBam : alignment_file) (segments : list AlignedSegment)
    (fragment_dict : gmap string fragment) :
  AlignmentFile bam = Ok inputBam →
  fetch inputBam interval.1 0 interval.2 = Ok segments →
  fetch_loop segments ∅ min_mapq cellbarcode None cells = Ok fragment_dict →
  (∀ key x, fragment_dict !! key = Some x → ¬ complete x) →
  getFragments pyset AlignmentFile re_compile interval bam min_mapq
    cellbarcode None cells = Raise ValueError.
Proof.
  intros Hopen Hfetch Hloop Hnone. unfold getFragments.
  rewrite Hopen. cbn [mbind result_bind]. rewrite Hfetch.
  cbn [mbind result_bind]. rewrite Hloop. cbn [mbind result_bind].
  rewrite filterFragmentDict_filter. cbn [mbind result_bind].
  assert (filter (λ kx : string * fragment,
                    forallb truthy (values kx.2) = true) fragment_dict = ∅)
    as ->; [|apply collapseFragments_nil].
  apply map_empty. intros key. apply map_lookup_filter_None. right.
  intros x Hx Hall. cbn [snd] in Hall.
  apply all_truthy_complete in Hall. by eapply Hnone.
Qed.
End run.

Lemma getFragments_no_complete_pair_witness :
  getFragments listed_set
    (λ bam, if decide (bam = "reads.bam") then Ok orphan_bam else Raise OSError)
    (λ _, acgt_prefix) ("chr1", 1000) "reads.bam" 30 "CB" None None
  = Raise ValueError.
Proof.
  apply (getFragments_no_complete_pair listed_set listed_set_elem _ _
           ("chr1", 1000) "reads.bam" 30 "CB" None orphan_bam [R1_fwd 150]
           {[ "R1" := Fragment (Some "chr1") (Some 106) None (Some "AAAA") ]}).
  - reflexivity.
  - reflexivity.
  - vm_compute. reflexivity.
  - intros key x [<- <-]%lookup_singleton_Some (_ & _ & (e & He & _) & _).
    discriminate He.
Defined.
(** ** The read loop: what a pair keeps *)

(** What a read does to the mapping does not depend on the mapping: it
    raises, or leaves the mapping as it is, or writes its side under its
    name. *)
Lemma updateFragmentDict_shape segment min_mapq cellbarcode readname_barcode
    cells :
  (∀ fragments,
     updateFragmentDict fragments segment min_mapq cellbarcode
       readname_barcode cells = Raise AttributeError)
  ∨ (∀ fragments,
       updateFragmentDict fragments segment min_mapq cellbarcode
         readname_barcode cells = Ok fragments)
  ∨ ∃ cell_barcode rend,
      accepted segment min_mapq cellbarcode readname_barcode cells cell_barcode
        rend.
Proof.
  destruct (updateFragmentDict_cases ∅ segment min_mapq cellbarcode
              readname_barcode cells) as [[Hbc _]|[[[bc Hbc] Hsame]|Hacc]].
  - left. intros fragments. unfold updateFragmentDict. by rewrite Hbc.
  - destruct (not_in_cells cells bc) eqn:Hcells.
    { right; left. intros fragments. unfold updateFragmentDict.
      rewrite Hbc. simpl. by rewrite Hcells. }
    destruct (mapping_quality segment <? min_mapq) eqn:Hmapq.
    { right; left. intros fragments. unfold updateFragmentDict.
      rewrite Hbc. simpl. by rewrite Hcells, Hmapq. }
    destruct (reference_end segment) as [rend|] eqn:Hrend.
    + right; right. exists bc, rend. repeat split; try done.
      * intros cs b -> ->. apply bool_decide_eq_false in Hcells.
        by apply dec_stable.
      * apply Z.ltb_ge in Hmapq. lia.
    + right; left. intros fragments. unfold updateFragmentDict.
      rewrite Hbc. simpl. by rewrite Hcells, Hmapq, Hrend.
  - by right; right.
Qed.

Lemma folded_entry_chrom_cell segment cell_barcode rend entry :
  chrom (folded_entry segment cell_barcode rend (Some entry)) = chrom entry ∧
  cell (folded_entry segment cell_barcode rend (Some entry)) = cell entry.
Proof. unfold folded_entry. simpl. by destruct (is_reverse segment). Qed.

Lemma folded_entry_fresh segment cell_barcode rend :
  chrom (folded_entry segment cell_barcode rend None) = reference_name segment ∧
  cell (folded_entry segment cell_barcode rend None) = cell_barcode.
Proof. unfold folded_entry. simpl. by destruct (is_reverse segment). Qed.

Lemma updateFragmentDict_entry_kept fragments fragments' segment min_mapq
    cellbarcode readname_barcode cells key entry :
  updateFragmentDict fragments segment min_mapq cellbarcode readname_barcode
    cells = Ok fragments' →
  fragments !! key = Some entry →
  ∃ entry', fragments' !! key = Some entry' ∧
            chrom entry' = chrom entry ∧ cell entry' = cell entry.
Proof.
  intros Hup Hkey.
  destruct (updateFragmentDict_shape segment min_mapq cellbarcode
              readname_barcode cells) as [Hraise|[Hsame|(bc & rend & Hacc)]].
  - by rewrite Hraise in Hup.
  - rewrite Hsame in Hup. injection Hup as <-. eauto.
  - rewrite (updateFragmentDict_accepted _ _ _ _ _ _ _ _ Hacc) in Hup.
    injection Hup as <-.
    destruct (decide (key = query_name segment)) as [->|Hne].
    + rewrite Hkey, lookup_insert_eq. eexists. split; [done|].
      apply folded_entry_chrom_cell.
    + rewrite lookup_insert_ne by done. eauto.
Qed.

Lemma fetch_loop_entry_kept segments fragment_dict fragments' min_mapq
    cellbarcode readname_barcode cells key entry :
  fetch_loop segments fragment_dict min_mapq cellbarcode readname_barcode cells
  = Ok fragments' →
  fragment_dict !! key = Some entry →
  ∃ entry', fragments' !! key = Some entry' ∧
            chrom entry' = chrom entry ∧ cell entry' = cell entry.
Proof.
  revert fragment_dict entry.
  induction segments as [|i rest IH]; intros fragment_dict entry Hloop Hkey.
  - injection Hloop as <-. eauto.
  - cbn [fetch_loop] in Hloop.
    destruct (updateFragmentDict fragment_dict i min_mapq cellbarcode
                readname_barcode cells) as [next|] eqn:Hup; [|done].
    cbn [mbind result_bind] in Hloop.
    destruct (updateFragmentDict_entry_kept _ _ _ _ _ _ _ _ _ Hup Hkey)
      as (entry1 & Hkey1 & Hc1 & Hb1).
    destruct (IH _ _ Hloop Hkey1) as (entry' & Hkey' & Hc' & Hb').
    exists entry'. split; [done|]. split; congruence.
Qed.

(** X6.  The first accepted read of a pair decides the pair's chromosome and
    barcode: whatever reads follow, the entry under its name keeps the
    reference name and the barcode of that read.  So a pair whose first
    accepted read carries no barcode is dropped by the completeness filter
    even when its mate carries one. *)
Theorem fetch_loop_first_read_decides first rest fragment_dict fragments'
    min_mapq cellbarcode readname_barcode cells cell_barcode rend :
  fragment_dict !! query_name first = None →
  accepted first min_mapq cellbarcode readname_barcode cells cell_barcode rend →
  fetch_loop (first :: rest) fragment_dict min_mapq cellbarcode
    readname_barcode cells = Ok fragments' →
  (∃ entry, fragments' !! query_name first = Some entry ∧
            chrom entry = reference_name first ∧ cell entry = cell_barcode) ∧
  (cell_barcode = None →
   ∃ kept, filterFragmentDict fragments' = Ok kept ∧
           kept !! query_name first = None).
Proof.
  intros Hfresh Hacc Hloop. cbn [fetch_loop] in Hloop.
  rewrite (updateFragmentDict_accepted _ _ _ _ _ _ _ _ Hacc) in Hloop.
  cbn [mbind result_bind] in Hloop. rewrite Hfresh in Hloop.
  destruct (fetch_loop_entry_kept _ _ _ _ _ _ _ (query_name first) _ Hloop
              (lookup_insert_eq _ _ _)) as (entry & Hentry & Hc & Hb).
  destruct (folded_entry_fresh first cell_barcode rend) as [Hc0 Hb0].
  assert (chrom entry = reference_name first ∧ cell entry = cell_barcode)
    as [Hchrom Hcell] by (split; congruence).
  split; [eauto|]. intros ->. eexists.
  split; [apply filterFragmentDict_filter|].
  apply map_lookup_filter_None. right. intros x Hx Hall. cbn [snd] in Hall.
  rewrite Hentry in Hx. injection Hx as <-.
  apply all_truthy_complete in Hall as (_ & _ & _ & (b & Hsome & _)).
  congruence.
Qed.

Lemma fetch_loop_first_read_decides_witness :
  (∃ entry,
     ({[ "R2" := Fragment (Some "chr1") (Some 304) (Some 445) None ]}
        : gmap string fragment) !! "R2" = Some entry ∧
     chrom entry = Some "chr1" ∧ cell entry = None) ∧
  (None = (None : option string) →
   ∃ kept,
     filterFragmentDict
       {[ "R2" := Fragment (Some "chr1") (Some 304) (Some 445) None ]}
     = Ok kept ∧ kept !! "R2" = None).
Proof.
  apply (fetch_loop_first_read_decides (unnamed_read 40)
           [Segment "R2" [("CB", "AAAA")] 40 (Some "chr1") 400 (Some 450) 0 true]
           ∅ _ 30 "CB" None None None 350).
  - reflexivity.
  - accepted_read.
  - vm_compute. reflexivity.
Defined.

(** X7.  With an allow-list, no entry gets a barcode from outside the list: if
    the barcodes of the mapping are listed before the loop, they are
    listed after it. *)
Theorem fetch_loop_allow_list segments fragment_dict fragments' min_mapq
    cellbarcode readname_barcode (cs : list string) :
  (∀ key x b, fragment_dict !! key = Some x → cell x = Some b → b ∈ cs) →
  fetch_loop segments fragment_dict min_mapq cellbarcode readname_barcode
    (Some cs) = Ok fragments' →
  ∀ key x b, fragments' !! key = Some x → cell x = Some b → b ∈ cs.
Proof.
  revert fragment_dict.
  induction segments as [|i rest IH]; intros fragment_dict Hinv Hloop.
  - by injection Hloop as <-.
  - cbn [fetch_loop] in Hloop.
    destruct (updateFragmentDict_shape i min_mapq cellbarcode readname_barcode
                (Some cs)) as [Hraise|[Hsame|(bc & rend & Hacc)]].
    + by rewrite Hraise in Hloop.
    + rewrite Hsame in Hloop. cbn [mbind result_bind] in Hloop.
      by apply (IH fragment_dict).
    + rewrite (updateFragmentDict_accepted _ _ _ _ _ _ _ _ Hacc) in Hloop.
      cbn [mbind result_bind] in Hloop. eapply IH; [|exact Hloop].
      intros key x b Hx Hb.
      apply lookup_insert_Some in Hx as [[<- <-]|[_ Hx]]; [|by eapply Hinv].
      destruct (fragment_dict !! query_name i) as [old|] eqn:Hold.
      * destruct (folded_entry_chrom_cell i bc rend old) as [_ Hcell].
        rewrite Hcell in Hb. by eapply Hinv.
      * destruct (folded_entry_fresh i bc rend) as [_ Hcell].
        rewrite Hcell in Hb. destruct Hacc as (_ & Hcells & _).
        by eapply Hcells.
Qed.

Lemma fetch_loop_allow_list_witness : "AAAA" ∈ ["AAAA"; "CCCC"].
Proof.
  apply (fetch_loop_allow_list
           [R1_fwd 150; R1_rev 200 0;
            Segment "R3" [("CB", "GGGG")] 40 (Some "chr1") 500 (Some 550) 0
              false]
           ∅
           {[ "R1" := Fragment (Some "chr1") (Some 106) (Some 245) (Some "AAAA") ]}
           30 "CB" None ["AAAA"; "CCCC"]) with
    (key := "R1")
    (x := Fragment (Some "chr1") (Some 106) (Some 245) (Some "AAAA")).
  - intros key x b Hx. by rewrite lookup_empty in Hx.
  - vm_compute. reflexivity.
  - reflexivity.
  - reflexivity.
Defined.

(** X8.  Reads of different pairs do not get in each other's way: taking two
    reads with different names in either order gives the same mapping, or
    the same exception. *)
Theorem fetch_loop_swap a b fragment_dict min_mapq cellbarcode
    readname_barcode cells :
  query_name a ≠ query_name b →
  fetch_loop [a; b] fragment_dict min_mapq cellbarcode readname_barcode cells
  = fetch_loop [b; a] fragment_dict min_mapq cellbarcode readname_barcode cells.
Proof.
  intros Hne. cbn [fetch_loop].
  destruct (updateFragmentDict_shape a min_mapq cellbarcode readname_barcode
              cells) as [Ha|[Ha|(bca & renda & Ha)]];
    destruct (updateFragmentDict_shape b min_mapq cellbarcode readname_barcode
                cells) as [Hb|[Hb|(bcb & rendb & Hb)]];
    rewrite ?Ha, ?Hb; cbn [mbind result_bind]; rewrite ?Ha, ?Hb;
    cbn [mbind result_bind]; try done;
    rewrite ?(updateFragmentDict_accepted _ _ _ _ _ _ _ _ Ha),
      ?(updateFragmentDict_accepted _ _ _ _ _ _ _ _ Hb);
    cbn [mbind result_bind]; rewrite ?Ha, ?Hb; try done.
  rewrite (updateFragmentDict_accepted _ _ _ _ _ _ _ _ Ha),
    (updateFragmentDict_accepted _ _ _ _ _ _ _ _ Hb).
  rewrite !lookup_insert_ne by done.
  by rewrite (insert_insert_ne _ (query_name a) (query_name b)).
Qed.

Lemma fetch_loop_swap_witness :
  fetch_loop [R1_fwd 150; unnamed_read 40] ∅ 30 "CB" None None
  = fetch_loop [unnamed_read 40; R1_fwd 150] ∅ 30 "CB" None None.
Proof. apply (fetch_loop_swap (R1_fwd 150) (unnamed_read 40)). simpl. done. Defined.
(** ** Flattening the partitions' results and writing the file *)

Lemma foldl_snoc {A : Type} (x j : list A) :
  foldl (λ x y, x ++ [y]) x j = x ++ j.
Proof.
  revert x. induction j as [|y j IH]; intros x; simpl.
  - by rewrite app_nil_r.
  - by rewrite IH, <-app_assoc.
Qed.

Lemma foldl_snoc_concat {A : Type} (x : list A) (i : list (list A)) :
  foldl (λ x j, foldl (λ x y, x ++ [y]) x j) x i = x ++ concat i.
Proof.
  revert x. induction i as [|j i IH]; intros x; simpl.
  - by rewrite app_nil_r.
  - by rewrite IH, foldl_snoc, <-app_assoc.
Qed.

(** X9.  [condenseFragList] flattens two levels and keeps the order: the result
    is the concatenation of the concatenation.  Called as [fragments] calls
    it, on the one-element list that holds the partitions' results, it
    gives the rows of the partitions one after the other, in the order of
    the partitions. *)
Theorem condenseFragList_concat {A : Type} (fraglist : list (list (list A))) :
  condenseFragList fraglist = concat (concat fraglist) ∧
  ∀ results : list (list A), condenseFragList [results] = concat results.
Proof.
  assert (∀ (x : list A) l,
            foldl (λ x i, foldl (λ x j, foldl (λ x y, x ++ [y]) x j) x i) x l
            = x ++ concat (concat l)) as Hfold.
  { intros x l. revert x. induction l as [|i l IH]; intros x; simpl.
    - by rewrite app_nil_r.
    - by rewrite IH, foldl_snoc_concat, concat_app, <-app_assoc. }
  split.
  - unfold condenseFragList. by rewrite Hfold.
  - intros results. unfold condenseFragList. rewrite Hfold. simpl.
    by rewrite app_nil_r.
Qed.

Lemma contains_app c a b :
  contains c (a +:+ b) = contains c a || contains c b.
Proof.
  induction a as [|c' a IH]; simpl; [done|]. by destruct (decide (c' = c)).
Qed.

Lemma contains_join c sep parts :
  contains c sep = false →
  (∀ p, p ∈ parts → contains c p = false) →
  contains c (join sep parts) = false.
Proof.
  intros Hsep. induction parts as [|p parts IH]; intros Hparts; [done|].
  destruct parts as [|q parts].
  - apply Hparts. left.
  - change (join sep (p :: q :: parts)) with (p +:+ sep +:+ join sep (q :: parts)).
    rewrite !contains_app, Hsep, (Hparts p) by left. simpl.
    apply IH. intros p' Hp'. apply Hparts. by right.
Qed.

Lemma split_join sep parts :
  parts ≠ [] →
  (∀ p, p ∈ parts → contains sep p = false) →
  split sep (join (String sep "") parts) = parts.
Proof.
  induction parts as [|p parts IH]; intros Hne Hparts; [done|].
  destruct parts as [|q parts].
  - simpl. apply split_sep_free, Hparts. left.
  - change (join (String sep "") (p :: q :: parts))
      with (p +:+ String sep (join (String sep "") (q :: parts))).
    rewrite split_app by (apply Hparts; left). f_equal.
    apply IH; [done|]. intros p' Hp'. apply Hparts. by right.
Qed.

Lemma split_lines (lines : list string) :
  (∀ l, l ∈ lines → contains newline l = false) →
  split newline (foldr (λ l text, l +:+ String newline text) "" lines)
  = lines ++ [""].
Proof.
  induction lines as [|l lines IH]; intros Hlines; [done|].
  cbn [foldr]. rewrite split_app by (apply Hlines; left).
  rewrite IH; [done|]. intros l' Hl'. apply Hlines. by right.
Qed.

Lemma append_assoc (a b c : string) : (a +:+ b) +:+ c = a +:+ (b +:+ c).
Proof.
  induction a as [|x a IH]; [done|].
  change (String x ((a +:+ b) +:+ c) = String x (a +:+ (b +:+ c))).
  by rewrite IH.
Qed.

Lemma append_empty_r (a : string) : a +:+ "" = a.
Proof.
  induction a as [|x a IH]; [done|].
  change (String x (a +:+ "") = String x a). by rewrite IH.
Qed.

Lemma write_loop filepath (fragments : list (list pyval)) (fs : filesystem)
    (text : string) :
  files fs !! filepath = Some text →
  files (foldl (λ fs i,
           write filepath
             (join (String tab "") (str <$> i) +:+ String newline "") fs)
           fs fragments)
  = <[filepath :=
        text +:+ foldr (λ l text, l +:+ String newline text) ""
                   (fragment_line <$> fragments)]> (files fs).
Proof.
  revert fs text. induction fragments as [|i rest IH]; intros fs text Htext.
  - cbn. rewrite append_empty_r. symmetry. by apply insert_id.
  - cbn [foldl fmap list_fmap foldr].
    rewrite (IH _ (text +:+ (fragment_line i +:+ String newline ""))).
    + unfold write. cbn [files]. rewrite insert_insert_eq. f_equal.
      by rewrite !append_assoc.
    + unfold write. cbn [files]. by rewrite lookup_insert_eq, Htext.
Qed.

(** X10.  What [writeFragments] leaves on disk can be read back.  When the path
    can be opened and no field, printed, holds a tab or a newline, the file
    holds one line per row, in order, each ended by a newline (so splitting
    on newlines leaves one empty string at the end), and splitting a line on
    tabs gives back the printed fields of its row.  What the file held
    before is gone, and no other file is touched. *)
Theorem writeFragments_round_trip (fragments : list (list pyval))
    (filepath : string) (fs : filesystem) :
  denied fs filepath = None →
  (∀ row, row ∈ fragments → printable row) →
  ∃ fs' text,
    writeFragments fragments filepath fs = Ok fs' ∧
    files fs' !! filepath = Some text ∧
    (∀ path, path ≠ filepath → files fs' !! path = files fs !! path) ∧
    split newline text = (fragment_line <$> fragments) ++ [""] ∧
    ∀ row, row ∈ fragments → split tab (fragment_line row) = str <$> row.
Proof.
  intros Hopen Hrows. unfold writeFragments, open_w. rewrite Hopen.
  cbn [mbind result_bind].
  set (fs0 := {| files := <[filepath := ""]> (files fs); denied := denied fs |}).
  assert (files fs0 !! filepath = Some "") as Hnew.
  { unfold fs0. cbn [files]. apply lookup_insert_eq. }
  pose proof (write_loop filepath fragments fs0 "" Hnew) as Hfiles.
  eexists _, _. split; [reflexivity|].
  rewrite Hfiles. unfold fs0. cbn [files]. rewrite insert_insert_eq.
  split; [apply lookup_insert_eq|]. split; [|split].
  - intros path Hpath. by rewrite lookup_insert_ne.
  - change (split newline
              (foldr (λ l text, l +:+ String newline text) ""
                 (fragment_line <$> fragments))
            = (fragment_line <$> fragments) ++ [""]).
    apply split_lines.
    intros l [row [-> Hrow]]%list_elem_of_fmap.
    destruct (Hrows row Hrow) as [_ Hfields]. apply contains_join; [done|].
    intros p [v [-> Hv]]%list_elem_of_fmap. by apply Hfields.
  - intros row Hrow. destruct (Hrows row Hrow) as [Hne Hfields].
    apply split_join.
    + by destruct row.
    + intros p [v [-> Hv]]%list_elem_of_fmap. by apply Hfields.
Qed.

Lemma writeFragments_round_trip_witness :
  ∃ fs' text,
    writeFragments
      [[PStr "chr1"; PStr "106"; PStr "245"; PStr "AAAA"; PInt 3]]
      "fragments.tsv" empty_fs = Ok fs' ∧
    files fs' !! "fragments.tsv" = Some text ∧
    (∀ path, path ≠ "fragments.tsv" →
       files fs' !! path = files empty_fs !! path) ∧
    split newline text
    = (fragment_line
         <$> [[PStr "chr1"; PStr "106"; PStr "245"; PStr "AAAA"; PInt 3]])
      ++ [""] ∧
    ∀ row,
      row ∈ [[PStr "chr1"; PStr "106"; PStr "245"; PStr "AAAA"; PInt 3]] →
      split tab (fragment_line row) = str <$> row.
Proof.
  apply (writeFragments_round_trip
           [[PStr "chr1"; PStr "106"; PStr "245"; PStr "AAAA"; PInt 3]]
           "fragments.tsv" empty_fs).
  - reflexivity.
  - intros row ->%list_elem_of_singleton. split; [done|].
    intros v Hv. repeat (apply elem_of_cons in Hv as [->|Hv]; [by vm_compute|]).
    by apply elem_of_nil in Hv.
Defined.
(** ** The per-partition routine in tag mode *)

Lemma fetch_loop_tag_mode segments fragment_dict min_mapq cellbarcode cells :
  ∃ fragments',
    fetch_loop segments fragment_dict min_mapq cellbarcode None cells
    = Ok fragments'.
Proof.
  revert fragment_dict.
  induction segments as [|i rest IH]; intros fragment_dict; [by eexists|].
  cbn [fetch_loop].
  destruct (updateFragmentDict_cases fragment_dict i min_mapq cellbarcode None
              cells) as [[Hbc _]|[[_ Hsame]|(bc & rend & Hacc)]].
  - discriminate Hbc.
  - rewrite Hsame. apply IH.
  - rewrite (updateFragmentDict_accepted _ _ _ _ _ _ _ _ Hacc). apply IH.
Qed.

Section tag_mode.
Variable pyset : ∀ A : Type, EqDecision A → list A → list A.
Variable AlignmentFile : string → result alignment_file.
Variable re_compile : string → regex.

(** X4.  With the barcode taken from the tags, nothing raises between the fetch
    and the deduplicator: once the file is open and the reads are fetched,
    the read loop and the completeness filter return, and the routine gives
    what the deduplicator gives on the completed entries of the loop's
    mapping. *)
Theorem getFragments_tag_mode (interval : string * Z) (bam : string)
    (min_mapq : Z) (cellbarcode : string) (cells : option (list string))
    (inputBam : alignment_file) (segments : list AlignedSegment) :
  AlignmentFile bam = Ok inputBam →
  fetch inputBam interval.1 0 interval.2 = Ok segments →
  ∃ fragment_dict kept,
    fetch_loop segments ∅ min_mapq cellbarcode None cells = Ok fragment_dict ∧
    (∀ key x, kept !! key = Some x ↔
              fragment_dict !! key = Some x ∧ complete x) ∧
    getFragments pyset AlignmentFile re_compile interval bam min_mapq
      cellbarcode None cells = collapseFragments pyset kept.
Proof.
  intros Hopen Hfetch.
  destruct (fetch_loop_tag_mode segments ∅ min_mapq cellbarcode cells)
    as [fragment_dict Hloop].
  exists fragment_dict,
    (filter (λ kx : string * fragment, forallb truthy (values kx.2) = true)
       fragment_dict).
  split; [done|]. split.
  - intros key x. rewrite map_lookup_filter_Some. cbn [snd].
    by rewrite all_truthy_complete.
  - unfold getFragments. rewrite Hopen. cbn [mbind result_bind].
    rewrite Hfetch. cbn [mbind result_bind]. rewrite Hloop.
    cbn [mbind result_bind]. by rewrite filterFragmentDict_filter.
Qed.
End tag_mode.

Lemma getFragments_tag_mode_witness :
  ∃ fragment_dict kept,
    fetch_loop [named_fwd; named_rev; unnamed_read 40] ∅ 30 "CB" None None
    = Ok fragment_dict ∧
    (∀ key x, kept !! key = Some x ↔
              fragment_dict !! key = Some x ∧ complete x) ∧
    getFragments listed_set one_file (λ _, acgt_prefix) ("chr1", 1000)
      "reads.bam" 30 "CB" None None = collapseFragments listed_set kept.
Proof.
  apply (getFragments_tag_mode listed_set one_file (λ _, acgt_prefix)
           ("chr1", 1000) "reads.bam" 30 "CB" None reads_bam
           [named_fwd; named_rev; unnamed_read 40]).
  - reflexivity.
  - reflexivity.
Defined.

(** ** The lookup of [id_lookup] *)

Section id_lookup_bijection.
Variable pyset : ∀ A : Type, EqDecision A → list A → list A.
Hypothesis pyset_NoDup :
  ∀ (A : Type) (H : EqDecision A) (l : list A), NoDup (pyset A H l).
Hypothesis pyset_elem :
  ∀ (A : Type) (H : EqDecision A) (l : list A) (x : A),
    x ∈ pyset A H l ↔ x ∈ l.
Context {K : Type} `{EqDecision K}.
Local Open Scope nat_scope.

(** X3.  Whatever order the two sets of [id_lookup] are iterated in, the lookup
    is a one-to-one numbering of the distinct items: its keys are the items
    of the list, its values are the numbers below the count of distinct
    items, every such number is given to some item and no number to two.
    Which item gets which number is left to the iteration order. *)
Theorem id_lookup_bijection (l : list K) :
  let d := id_lookup pyset l in
  (∀ k, k ∈ l ↔ is_Some (dict_get d k)) ∧
  (∀ k i, dict_get d k = Some i → i < length (remove_dups l)) ∧
  (∀ i, i < length (remove_dups l) → ∃ k, dict_get d k = Some i) ∧
  (∀ k k' i, dict_get d k = Some i → dict_get d k' = Some i → k = k').
Proof.
  intros d. destruct (id_lookup_pairs pyset pyset_NoDup pyset_elem l)
    as (Hnd & Hkeys & Hvals). fold d in Hnd, Hkeys, Hvals.
  assert (length d = length (remove_dups l)) as Hlen.
  { rewrite <-(length_fmap fst d). apply Permutation_length.
    apply NoDup_Permutation; [done|apply NoDup_remove_dups|].
    intros k. by rewrite Hkeys, elem_of_remove_dups. }
  split; [|split; [|split]].
  - intros k. split.
    + intros Hk. apply dict_get_is_Some. by apply Hkeys.
    + intros [i Hi]. by eapply (id_lookup_key_elem pyset pyset_NoDup pyset_elem).
  - intros k i Hi%dict_get_Some_elem. rewrite <-Hlen.
    assert (i ∈ d.*2) as Hin.
    { apply list_elem_of_fmap. by exists (k, i). }
    rewrite Hvals in Hin. apply elem_of_seq in Hin. lia.
  - intros i Hi. rewrite <-Hlen in Hi.
    assert (i ∈ d.*2) as Hin.
    { rewrite Hvals. apply elem_of_seq. lia. }
    apply list_elem_of_fmap in Hin as ([k i'] & -> & Hin).
    exists k. by apply dict_get_elem.
  - intros k k' i. apply (id_lookup_inj pyset pyset_NoDup pyset_elem).
Qed.
End id_lookup_bijection.

Lemma id_lookup_bijection_witness :
  let d := id_lookup listed_set ["chr1|106|245"; "chr1|300|400"; "chr1|106|245"] in
  (∀ k, k ∈ ["chr1|106|245"; "chr1|300|400"; "chr1|106|245"] ↔
        is_Some (dict_get d k)) ∧
  (∀ k i, dict_get d k = Some i →
     (i < length (remove_dups
                    ["chr1|106|245"; "chr1|300|400"; "chr1|106|245"]))%nat) ∧
  (∀ i, (i < length (remove_dups
                       ["chr1|106|245"; "chr1|300|400"; "chr1|106|245"]))%nat →
     ∃ k, dict_get d k = Some i) ∧
  (∀ k k' i, dict_get d k = Some i → dict_get d k' = Some i → k = k').
Proof.
  apply (id_lookup_bijection listed_set listed_set_NoDup listed_set_elem
           ["chr1|106|245"; "chr1|300|400"; "chr1|106|245"]).
Defined.
